(** * Rubik's Cube solver: the cube engine and the two search strategies

    A shallow embedding of [src/cube.py], [src/solvers/bfs_solver.py] and
    [src/solvers/astar_solver.py].

    - The [faces] attribute of a [RubiksCube] is a numpy array of fixed shape
      (6, 3, 3) and dtype int8.  It is modelled by nested records; stickers
      are integers (no move does arithmetic on them).
    - Methods that mutate [self.faces] in place are computations in a
      state-and-exception monad over the array contents.
    - The solvers allocate new cubes and arrays; they run in the same monad
      over a store of arrays, so that aliasing with the caller's cube is
      visible. *)

From Stdlib Require Import ZArith List String Ascii Bool Lia Permutation.
From stdpp Require Import base list.
Import ListNotations.

Local Open Scope string_scope.
Local Open Scope list_scope.

(** ** Exceptions and the state-and-exception monad *)

Inductive exn : Type :=
| ValueError (msg : string)
| TypeError (msg : string)
| IndexError (msg : string)
| KeyError
| InvalidRef      (* not a Python exception: the model read a location outside the store *)
| FuelExhausted.  (* not a Python exception: a [while] loop of the model ran out of fuel *)

Inductive outcome (A : Type) : Type :=
| Ok (a : A)
| Raise (e : exn).
Arguments Ok {A} a.
Arguments Raise {A} e.

(** A computation over a mutable state [S]: the state is returned in both
    outcomes, since a Python exception does not undo earlier mutations. *)
Definition M (S A : Type) : Type := S -> outcome A * S.

Definition ret {S A} (a : A) : M S A := fun s => (Ok a, s).
Definition raise {S A} (e : exn) : M S A := fun s => (Raise e, s).
Definition bind {S A B} (m : M S A) (k : A -> M S B) : M S B :=
  fun s => match m s with
           | (Ok a, s') => k a s'
           | (Raise e, s') => (Raise e, s')
           end.
Definition get_state {S} : M S S := fun s => (Ok s, s).
Definition put_state {S} (s : S) : M S unit := fun _ => (Ok tt, s).
Definition lift_outcome {S A} (o : outcome A) : M S A := fun s => (o, s).

Notation "'let*' x ':=' m 'in' k" := (bind m (fun x => k))
  (at level 10, x name, m at level 100, k at level 200).
Notation "'let*' ' p ':=' m 'in' k" := (bind m (fun p => k))
  (at level 10, p pattern, m at level 100, k at level 200).
Notation "'do*' m 'in' k" := (bind m (fun _ => k))
  (at level 10, m at level 100, k at level 200).

(** [[f(x) for x in xs]] with an effectful [f], evaluated left to right. *)
Fixpoint mapM {S A B} (f : A -> M S B) (xs : list A) : M S (list B) :=
  match xs with
  | [] => ret []
  | x :: xs' => let* y := f x in let* ys := mapM f xs' in ret (y :: ys)
  end.

(** [for x in xs: f(x)]; an exception leaves the loop at once. *)
Fixpoint forM_ {S A} (xs : list A) (f : A -> M S unit) : M S unit :=
  match xs with
  | [] => ret tt
  | x :: xs' => do* f x in forM_ xs' f
  end.

(** ** Python list slices [l[i:]] and [l[:i]] *)

Definition py_norm_index (len : nat) (i : Z) : nat :=
  let i' := if (i <? 0)%Z then (i + Z.of_nat len)%Z else i in
  Z.to_nat (Z.min (Z.max i' 0) (Z.of_nat len)).

Definition py_slice_from {A} (l : list A) (i : Z) : list A :=
  skipn (py_norm_index (length l) i) l.
Definition py_slice_to {A} (l : list A) (i : Z) : list A :=
  firstn (py_norm_index (length l) i) l.

(** ** Python strings: [strip] and [split]

    A character is a code point below 256; the white space of [str.isspace]
    in that range is 9..13, 28..32, 133 and 160. *)

Definition py_isspace (c : ascii) : bool :=
  let n := nat_of_ascii c in
  (((9 <=? n) && (n <=? 13)) || ((28 <=? n) && (n <=? 32)) || (n =? 133) || (n =? 160))%nat.

Fixpoint lstrip_chars (cs : list ascii) : list ascii :=
  match cs with
  | c :: cs' => if py_isspace c then lstrip_chars cs' else cs
  | [] => []
  end.

Definition strip (s : string) : string :=
  string_of_list_ascii
    (rev (lstrip_chars (rev (lstrip_chars (list_ascii_of_string s))))).

(** [split_go cs word]: [word] is the current token, last character first. *)
Fixpoint split_go (cs : list ascii) (word : list ascii) : list string :=
  match cs with
  | [] => match word with
          | [] => []
          | _ => [string_of_list_ascii (rev word)]
          end
  | c :: cs' =>
      if py_isspace c then
        match word with
        | [] => split_go cs' []
        | _ => string_of_list_ascii (rev word) :: split_go cs' []
        end
      else split_go cs' (c :: word)
  end.

(** [s.split()] with no argument: the maximal runs of non-space characters. *)
Definition split (s : string) : list string :=
  split_go (list_ascii_of_string s) [].

(** ** The cube: [src/cube.py] *)

Module Cube.

(** A one-dimensional int8 array of length 3. *)
Record Row : Type := mkRow { c0 : Z; c1 : Z; c2 : Z }.

(** A face: a 3x3 array, [r0] the row of index 0. *)
Record Face : Type := mkFace { r0 : Row; r1 : Row; r2 : Row }.

(** [self.faces]: six faces, index 0..5 = Front, Back, Up, Down, Left, Right. *)
Record Faces : Type :=
  mkFaces { f0 : Face; f1 : Face; f2 : Face; f3 : Face; f4 : Face; f5 : Face }.

Definition full_row (v : Z) : Row := mkRow v v v.
Definition full_face (v : Z) : Face := mkFace (full_row v) (full_row v) (full_row v).

(** [__init__]: [faces[i, :, :] = i] for [i] in [range(6)]. *)
Definition init_faces : Faces :=
  mkFaces (full_face 0) (full_face 1) (full_face 2)
          (full_face 3) (full_face 4) (full_face 5).

(** *** numpy indexing on a face *)

(** [r[::-1]] *)
Definition rev_row (r : Row) : Row := mkRow (c2 r) (c1 r) (c0 r).

(** [face[0, :]], [face[-1, :]], [face[:, 0]], [face[:, -1]] *)
Definition top_row (f : Face) : Row := r0 f.
Definition bottom_row (f : Face) : Row := r2 f.
Definition left_col (f : Face) : Row := mkRow (c0 (r0 f)) (c0 (r1 f)) (c0 (r2 f)).
Definition right_col (f : Face) : Row := mkRow (c2 (r0 f)) (c2 (r1 f)) (c2 (r2 f)).

(** [face[0, :] = e], [face[-1, :] = e], [face[:, 0] = e], [face[:, -1] = e] *)
Definition set_top_row (f : Face) (e : Row) : Face := mkFace e (r1 f) (r2 f).
Definition set_bottom_row (f : Face) (e : Row) : Face := mkFace (r0 f) (r1 f) e.
Definition set_left_col (f : Face) (e : Row) : Face :=
  mkFace (mkRow (c0 e) (c1 (r0 f)) (c2 (r0 f)))
         (mkRow (c1 e) (c1 (r1 f)) (c2 (r1 f)))
         (mkRow (c2 e) (c1 (r2 f)) (c2 (r2 f))).
Definition set_right_col (f : Face) (e : Row) : Face :=
  mkFace (mkRow (c0 (r0 f)) (c1 (r0 f)) (c0 e))
         (mkRow (c0 (r1 f)) (c1 (r1 f)) (c1 e))
         (mkRow (c0 (r2 f)) (c1 (r2 f)) (c2 e)).

(** *** [np.rot90]

    numpy computes [rot90(m, 1)] as [transpose(flip(m, 1))], [rot90(m, 2)] as
    [flip(flip(m, 0), 1)] and [rot90(m, 3)] as [flip(transpose(m), 1)], with
    [k] taken modulo 4.  So [rot90(m, 1)[i][j] = m[j][2 - i]]: a quarter turn
    counter-clockwise as the array is printed. *)

Definition transpose (f : Face) : Face :=
  mkFace (mkRow (c0 (r0 f)) (c0 (r1 f)) (c0 (r2 f)))
         (mkRow (c1 (r0 f)) (c1 (r1 f)) (c1 (r2 f)))
         (mkRow (c2 (r0 f)) (c2 (r1 f)) (c2 (r2 f))).
Definition flip0 (f : Face) : Face := mkFace (r2 f) (r1 f) (r0 f).
Definition flip1 (f : Face) : Face :=
  mkFace (rev_row (r0 f)) (rev_row (r1 f)) (rev_row (r2 f)).

Definition np_rot90 (m : Face) (k : Z) : Face :=
  match (k mod 4)%Z with
  | 0%Z => m
  | 1%Z => transpose (flip1 m)
  | 2%Z => flip1 (flip0 m)
  | _ => flip1 (transpose m)
  end.

(** *** [self.faces[i]] *)

Definition faces_get (fs : Faces) (i : nat) : option Face :=
  match i with
  | 0 => Some (f0 fs) | 1 => Some (f1 fs) | 2 => Some (f2 fs)
  | 3 => Some (f3 fs) | 4 => Some (f4 fs) | 5 => Some (f5 fs)
  | _ => None
  end.

Definition faces_set (fs : Faces) (i : nat) (f : Face) : option Faces :=
  match i with
  | 0 => Some (mkFaces f (f1 fs) (f2 fs) (f3 fs) (f4 fs) (f5 fs))
  | 1 => Some (mkFaces (f0 fs) f (f2 fs) (f3 fs) (f4 fs) (f5 fs))
  | 2 => Some (mkFaces (f0 fs) (f1 fs) f (f3 fs) (f4 fs) (f5 fs))
  | 3 => Some (mkFaces (f0 fs) (f1 fs) (f2 fs) f (f4 fs) (f5 fs))
  | 4 => Some (mkFaces (f0 fs) (f1 fs) (f2 fs) (f3 fs) f (f5 fs))
  | 5 => Some (mkFaces (f0 fs) (f1 fs) (f2 fs) (f3 fs) (f4 fs) f)
  | _ => None
  end.

Definition index_error : exn := IndexError "index is out of bounds for axis 0 with size 6".

(** Reading [self.faces[i]] and writing through it. *)
Definition getitem (i : nat) : M Faces Face :=
  fun fs => match faces_get fs i with
            | Some f => (Ok f, fs)
            | None => (Raise index_error, fs)
            end.
Definition setitem (i : nat) (f : Face) : M Faces unit :=
  fun fs => match faces_set fs i f with
            | Some fs' => (Ok tt, fs')
            | None => (Raise index_error, fs)
            end.

(** *** [is_solved] *)

Definition cells (f : Face) : list Z :=
  [c0 (r0 f); c1 (r0 f); c2 (r0 f);
   c0 (r1 f); c1 (r1 f); c2 (r1 f);
   c0 (r2 f); c1 (r2 f); c2 (r2 f)].

Definition face_list (fs : Faces) : list Face :=
  [f0 fs; f1 fs; f2 fs; f3 fs; f4 fs; f5 fs].

(** [np.all(face == face[0, 0])] *)
Definition face_uniform (f : Face) : bool :=
  forallb (fun x => (x =? c0 (r0 f))%Z) (cells f).

Fixpoint is_solved_loop (faces : list Face) : bool :=
  match faces with
  | [] => true
  | face :: rest => if negb (face_uniform face) then false else is_solved_loop rest
  end.

Definition is_solved_faces (fs : Faces) : bool := is_solved_loop (face_list fs).

Definition is_solved : M Faces bool :=
  let* fs := get_state in ret (is_solved_faces fs).

(** *** [_rotate_face], [_get_face_edge], [_set_face_edge] *)

Definition _rotate_face (face_idx : nat) (clockwise : bool) : M Faces unit :=
  let k := if clockwise then 1%Z else 3%Z in
  let* face := getitem face_idx in
  setitem face_idx (np_rot90 face k).

(** The result is [None] when no branch is taken, as in Python. *)
Definition _get_face_edge (face_idx edge_idx : nat) : M Faces (option Row) :=
  let* face := getitem face_idx in
  match edge_idx with
  | 0 => ret (Some (top_row face))
  | 1 => ret (Some (right_col face))
  | 2 => ret (Some (rev_row (bottom_row face)))
  | 3 => ret (Some (rev_row (left_col face)))
  | _ => ret None
  end.

(** Using [None] as an edge raises [TypeError]. *)
Definition as_row (new_edge : option Row) : M Faces Row :=
  match new_edge with
  | Some e => ret e
  | None => raise (TypeError "NoneType is not an int8 array")
  end.

Definition _set_face_edge (face_idx edge_idx : nat) (new_edge : option Row)
  : M Faces unit :=
  match edge_idx with
  | 0 => let* face := getitem face_idx in
         let* e := as_row new_edge in
         setitem face_idx (set_top_row face e)
  | 1 => let* face := getitem face_idx in
         let* e := as_row new_edge in
         setitem face_idx (set_right_col face e)
  | 2 => let* e := as_row new_edge in
         let* face := getitem face_idx in
         setitem face_idx (set_bottom_row face (rev_row e))
  | 3 => let* e := as_row new_edge in
         let* face := getitem face_idx in
         setitem face_idx (set_left_col face (rev_row e))
  | _ => ret tt
  end.

(** *** The six moves

    Every [move_X] ends with the same three statements, here [shift_edges]:
    read the four strips, rotate the list by [shift], write the strips back. *)

Definition shift_edges (edges : list (nat * nat)) (shift : Z) : M Faces unit :=
  let* edge_values := mapM (fun '(face, edge) => _get_face_edge face edge) edges in
  let edge_values := py_slice_from edge_values shift ++ py_slice_to edge_values shift in
  forM_ (combine edges edge_values)
        (fun '((face, edge), new_edge) => _set_face_edge face edge new_edge).

Definition move_F (prime : bool) : M Faces unit :=
  do* _rotate_face 0 (negb prime) in
  let edges := [(2, 2); (5, 3); (3, 0); (4, 1)] in
  let shift := if prime then 1%Z else (-1)%Z in
  shift_edges edges shift.

Definition move_B (prime : bool) : M Faces unit :=
  do* _rotate_face 1 (negb prime) in
  let edges := [(2, 0); (4, 3); (3, 2); (5, 1)] in
  let shift := if prime then (-1)%Z else 1%Z in
  shift_edges edges shift.

Definition move_U (prime : bool) : M Faces unit :=
  do* _rotate_face 2 (negb prime) in
  let edges := [(0, 0); (5, 0); (1, 0); (4, 0)] in
  let shift := if prime then 1%Z else (-1)%Z in
  shift_edges edges shift.

Definition move_D (prime : bool) : M Faces unit :=
  do* _rotate_face 3 (negb prime) in
  let edges := [(0, 2); (4, 2); (1, 2); (5, 2)] in
  let shift := if prime then 1%Z else (-1)%Z in
  shift_edges edges shift.

Definition move_L (prime : bool) : M Faces unit :=
  do* _rotate_face 4 (negb prime) in
  let edges := [(0, 3); (2, 3); (1, 1); (3, 3)] in
  let shift := if prime then 1%Z else (-1)%Z in
  shift_edges edges shift.

Definition move_R (prime : bool) : M Faces unit :=
  do* _rotate_face 5 (negb prime) in
  let edges := [(0, 1); (3, 1); (1, 3); (2, 1)] in
  let shift := if prime then 1%Z else (-1)%Z in
  shift_edges edges shift.

(** *** [apply_move], [apply_algorithm], [reset] *)

(** [move[i] == c], for an index [i] known to be in range. *)
Definition char_at_is (move : string) (i : nat) (c : ascii) : bool :=
  match String.get i move with
  | Some c' => Ascii.eqb c' c
  | None => false
  end.

(** [move[0]] as a one-character string. *)
Definition first_char (move : string) : string :=
  match String.get 0 move with
  | Some c => String c EmptyString
  | None => EmptyString
  end.

Definition apply_move (move : string) : M Faces unit :=
  let move := strip move in
  let prime := false in
  let '(prime, move) :=
    if (1 <? String.length move)%nat && char_at_is move 1 "'"%char
    then (true, first_char move)
    else (prime, move) in
  if String.eqb move "F" then move_F prime
  else if String.eqb move "B" then move_B prime
  else if String.eqb move "U" then move_U prime
  else if String.eqb move "D" then move_D prime
  else if String.eqb move "L" then move_L prime
  else if String.eqb move "R" then move_R prime
  else raise (ValueError ("Invalid move: " ++ move)).

Definition apply_algorithm (algorithm : string) : M Faces unit :=
  forM_ (split algorithm) (fun move => apply_move move).

Definition reset : M Faces unit := put_state init_faces.

End Cube.

Import Cube.

(** The twelve tokens of [apply_move]'s docstring; both solvers store the
    same list in [self.basic_moves]. *)
Definition standard_moves : list string :=
  ["F"; "F'"; "B"; "B'"; "U"; "U'"; "D"; "D'"; "L"; "L'"; "R"; "R'"].

(** The inverse of a move token, as the specification words it: the same
    face letter with primedness flipped.  (The source has no such function.) *)
Definition inverse_move (m : string) : string :=
  if (1 <? String.length m)%nat && char_at_is m 1 "'"%char
  then first_char m
  else m ++ "'".

(** All 54 stickers, face by face, row by row. *)
Definition stickers (fs : Faces) : list Z := concat (map cells (face_list fs)).

(** [face[1, 1]] *)
Definition center (f : Face) : Z := c1 (r1 f).

(** States reachable from the solved cube by the twelve moves. *)
Inductive reachable : Faces -> Prop :=
| reachable_init : reachable init_faces
| reachable_move (c c' : Faces) (m : string) :
    reachable c -> In m standard_moves -> apply_move m c = (Ok tt, c') ->
    reachable c'.

(** A run of [apply_move] over a list of tokens in which every call returns
    normally: [moves_from c toks c'] when the calls, left to right, lead
    from [c] to [c']. *)
Inductive moves_from : Faces -> list string -> Faces -> Prop :=
| moves_nil (c : Faces) : moves_from c [] c
| moves_cons (c c1 c2 : Faces) (tok : string) (toks : list string) :
    apply_move tok c = (Ok tt, c1) -> moves_from c1 toks c2 ->
    moves_from c (tok :: toks) c2.

(** The solved cube after R, and after R then U. *)
Definition after_R : Faces :=
  Eval vm_compute in snd (apply_move "R" init_faces).
Definition after_RU : Faces :=
  Eval vm_compute in snd (apply_move "U" after_R).

(** ** The store of arrays and cube objects *)

Module Store.

Abbreviation loc := nat (only parsing).

(** The numpy arrays of shape (6, 3, 3) allocated so far; a location is an
    index in the list.  Nothing is ever freed. *)
Abbreviation store := (list Faces) (only parsing).

Definition H (A : Type) : Type := M store A.

Definition alloc (a : Faces) : H loc :=
  fun h => (Ok (length h), h ++ [a]).

Definition load (l : loc) : H Faces :=
  fun h => match h !! l with
           | Some a => (Ok a, h)
           | None => (Raise InvalidRef, h)
           end.

(** Run a computation on the contents of the array at [l], in place. *)
Definition at_loc {A} (l : loc) (m : M Faces A) : H A :=
  fun h => match h !! l with
           | Some a => let '(r, a') := m a in (r, <[l := a']> h)
           | None => (Raise InvalidRef, h)
           end.

(** A [RubiksCube] object: its two attributes.  [faces] is a reference, so
    two objects may share one array. *)
Record RubiksCube : Type := mkCube { size : Z; faces : loc }.

(** [RubiksCube(size)] *)
Definition RubiksCube_new (size : Z) : H RubiksCube :=
  if negb (size =? 3)%Z
  then raise (ValueError "Currently only 3x3 cube is supported")
  else let* l := alloc init_faces in ret (mkCube size l).

(** [cube.faces = arr] *)
Definition set_faces (cube : RubiksCube) (arr : loc) : RubiksCube :=
  mkCube (size cube) arr.

(** [cube.method(...)] *)
Definition call {A} (cube : RubiksCube) (method : M Faces A) : H A :=
  at_loc (faces cube) method.

(** [np.copy(arr)] *)
Definition np_copy (arr : loc) : H loc :=
  let* a := load arr in alloc a.

End Store.

Import Store.

(** ** Python values used as dictionary keys *)

Module Py.

(** The values that occur in a state key: integers, one-dimensional numpy
    arrays of length 3, and tuples. *)
#[warnings="-register-all"]
Inductive pyval : Type :=
| PInt (n : Z)
| PArray (r : Row)
| PTuple (xs : list pyval).

(** [hash(v)] returns normally: a numpy array is not hashable, and a tuple
    is hashable when all its elements are. *)
Fixpoint hashable (v : pyval) : bool :=
  match v with
  | PInt _ => true
  | PArray _ => false
  | PTuple xs => forallb hashable xs
  end.

Definition row_eqb (a b : Row) : bool :=
  ((c0 a =? c0 b) && (c1 a =? c1 b) && (c2 a =? c2 b))%Z.

(** Equality of keys.  It is only ever used on hashable values, for which
    Python's [==] is structural. *)
Fixpoint pyval_eqb (a b : pyval) : bool :=
  match a, b with
  | PInt n, PInt m => (n =? m)%Z
  | PArray r, PArray r' => row_eqb r r'
  | PTuple xs, PTuple ys =>
      (fix go (xs ys : list pyval) : bool :=
         match xs, ys with
         | [], [] => true
         | x :: xs', y :: ys' => pyval_eqb x y && go xs' ys'
         | _, _ => false
         end) xs ys
  | _, _ => false
  end.

Definition unhashable : exn := TypeError "unhashable type: 'numpy.ndarray'".

(** Every dictionary or set operation hashes the key first. *)
Definition check_hash (k : pyval) : outcome unit :=
  if hashable k then Ok tt else Raise unhashable.

(** A [dict], as its items in insertion order. *)
Definition dict (V : Type) : Type := list (pyval * V).

Fixpoint lookup_key {V} (d : dict V) (k : pyval) : option V :=
  match d with
  | [] => None
  | (k', v) :: d' => if pyval_eqb k' k then Some v else lookup_key d' k
  end.

Fixpoint update_key {V} (d : dict V) (k : pyval) (v : V) : dict V :=
  match d with
  | [] => [(k, v)]
  | (k', v') :: d' =>
      if pyval_eqb k' k then (k', v) :: d' else (k', v') :: update_key d' k v
  end.

(** [k in d] *)
Definition dict_contains {V} (d : dict V) (k : pyval) : outcome bool :=
  match check_hash k with
  | Raise e => Raise e
  | Ok _ => Ok (match lookup_key d k with Some _ => true | None => false end)
  end.

(** [d[k]] *)
Definition dict_getitem {V} (d : dict V) (k : pyval) : outcome V :=
  match check_hash k with
  | Raise e => Raise e
  | Ok _ => match lookup_key d k with
            | Some v => Ok v
            | None => Raise KeyError
            end
  end.

(** [d[k] = v] *)
Definition dict_setitem {V} (d : dict V) (k : pyval) (v : V) : outcome (dict V) :=
  match check_hash k with
  | Raise e => Raise e
  | Ok _ => Ok (update_key d k v)
  end.

(** A [set], as a dictionary without values. *)
Definition pyset : Type := dict unit.

Definition set_contains (s : pyset) (k : pyval) : outcome bool := dict_contains s k.
Definition set_add (s : pyset) (k : pyval) : outcome pyset := dict_setitem s k tt.

(** [tuple(face)] for a 3x3 array [face]: iterating a two-dimensional array
    yields its rows, each a one-dimensional array. *)
Definition tuple_of_face (face : Face) : pyval :=
  PTuple [PArray (r0 face); PArray (r1 face); PArray (r2 face)].

(** [np.array(v)] on one row of a nested tuple: an array or three integers. *)
Definition row_of_pyval (v : pyval) : option Row :=
  match v with
  | PArray r => Some r
  | PTuple [PInt a; PInt b; PInt c] => Some (mkRow a b c)
  | _ => None
  end.

Definition face_of_pyval (v : pyval) : option Face :=
  match v with
  | PTuple [a; b; c] =>
      match row_of_pyval a, row_of_pyval b, row_of_pyval c with
      | Some a, Some b, Some c => Some (mkFace a b c)
      | _, _, _ => None
      end
  | _ => None
  end.

Definition faces_of_pyval (v : pyval) : option Faces :=
  match v with
  | PTuple [a; b; c; d; e; f] =>
      match face_of_pyval a, face_of_pyval b, face_of_pyval c,
            face_of_pyval d, face_of_pyval e, face_of_pyval f with
      | Some a, Some b, Some c, Some d, Some e, Some f =>
          Some (mkFaces a b c d e f)
      | _, _, _, _, _, _ => None
      end
  | _ => None
  end.

(** [np.array(state).reshape((6, 3, 3))]: a new array. *)
Definition np_array_reshape (state : pyval) : H loc :=
  match faces_of_pyval state with
  | Some a => alloc a
  | None => raise (ValueError "cannot reshape array into shape (6,3,3)")
  end.

End Py.

Import Py.

(** The result of [solve] without its last component, the elapsed wall-clock
    time: [(solution_found, solution_moves, nodes_explored)]. *)
Definition solve_result : Type := (bool * list string * Z)%type.

(** The methods the two solver classes define with the same text. *)
Module Solver.

(** [tuple(tuple(tuple(face) for face in cube.faces))]: the generator yields
    [tuple(face)] for each of the six faces; the middle [tuple] collects them
    and the outer one returns it unchanged.  The rows are views of the
    array; they are recorded by value here, as no array is written to after
    a key has been taken from it. *)
Definition _cube_state_to_hashable (cube : RubiksCube) : H pyval :=
  call cube (let* fs := get_state in
             ret (PTuple (map tuple_of_face (face_list fs)))).

(** [while current in came_from: ...], then [path.reverse()]. *)
Fixpoint _reconstruct_path_loop (fuel : nat) (current : pyval)
    (came_from : dict (pyval * string)) (path : list string)
  : outcome (list string) :=
  match fuel with
  | 0 => Raise FuelExhausted
  | S fuel' =>
      match dict_contains came_from current with
      | Raise e => Raise e
      | Ok false => Ok (rev path)
      | Ok true =>
          match dict_getitem came_from current with
          | Raise e => Raise e
          | Ok (current', move) =>
              _reconstruct_path_loop fuel' current' came_from (path ++ [move])
          end
      end
  end.

Definition _reconstruct_path (fuel : nat) (current : pyval)
    (came_from : dict (pyval * string)) : outcome (list string) :=
  _reconstruct_path_loop fuel current came_from [].

End Solver.

(** ** Breadth-first search: [src/solvers/bfs_solver.py] *)

Module BFSSolver.

Record t : Type := mkSolver { max_depth : Z; basic_moves : list string }.

(** [__init__(self, max_depth=5)] *)
Definition init (max_depth : Z) : t :=
  mkSolver max_depth
    ["F"; "F'"; "B"; "B'"; "U"; "U'"; "D"; "D'"; "L"; "L'"; "R"; "R'"].

Definition _cube_state_to_hashable := Solver._cube_state_to_hashable.
Definition _reconstruct_path := Solver._reconstruct_path.

(** The local variables of [solve] that the loops update. *)
Record locals : Type := mkLocals {
  queue : list (pyval * Z);
  came_from : dict (pyval * string);
  visited : pyset;
  nodes_explored : Z
}.

(** [for move in self.basic_moves: ...] for one dequeued state.  [inr] is
    the [return] inside the loop, [inl] the locals when the loop ends. *)
Fixpoint for_moves (fuel : nat) (current_state : pyval) (depth : Z)
    (moves : list string) (v : locals) : H (locals + solve_result) :=
  match moves with
  | [] => ret (inl v)
  | move :: moves' =>
      let* new_cube := RubiksCube_new 3 in
      let* arr := np_array_reshape current_state in
      let new_cube := set_faces new_cube arr in
      do* call new_cube (apply_move move) in
      let* solved := call new_cube is_solved in
      if solved then
        let* key := _cube_state_to_hashable new_cube in
        let* came_from := lift_outcome
                            (dict_setitem (came_from v) key (current_state, move)) in
        let* key := _cube_state_to_hashable new_cube in
        let* solution := lift_outcome (_reconstruct_path fuel key came_from) in
        ret (inr (true, solution, nodes_explored v))
      else
        let* new_state := _cube_state_to_hashable new_cube in
        let* seen := lift_outcome (set_contains (visited v) new_state) in
        if negb seen then
          let* visited := lift_outcome (set_add (visited v) new_state) in
          let queue := queue v ++ [(new_state, (depth + 1)%Z)] in
          let* came_from := lift_outcome
                              (dict_setitem (came_from v) new_state (current_state, move)) in
          for_moves fuel current_state depth moves'
                    (mkLocals queue came_from visited (nodes_explored v))
        else
          for_moves fuel current_state depth moves' v
  end.

(** [while queue: ...] *)
Fixpoint while_queue (fuel : nat) (self : t) (v : locals) : H solve_result :=
  match fuel with
  | 0 => raise FuelExhausted
  | S fuel' =>
      match queue v with
      | [] => ret (false, [], nodes_explored v)
      | (current_state, depth) :: queue' =>
          let v := mkLocals queue' (came_from v) (visited v)
                            (nodes_explored v + 1)%Z in
          if (depth >=? max_depth self)%Z then while_queue fuel' self v
          else
            let* r := for_moves fuel current_state depth (basic_moves self) v in
            match r with
            | inl v' => while_queue fuel' self v'
            | inr result => ret result
            end
      end
  end.

Definition solve (self : t) (fuel : nat) (cube : RubiksCube) : H solve_result :=
  let* solved := call cube is_solved in
  if solved then ret (true, [], 0%Z)
  else
    let* cube_copy := RubiksCube_new 3 in
    let* arr := np_copy (faces cube) in
    let cube_copy := set_faces cube_copy arr in
    let* key := _cube_state_to_hashable cube_copy in
    let queue := [(key, 0%Z)] in
    let came_from := [] in
    let* key := _cube_state_to_hashable cube_copy in
    let* visited := lift_outcome (set_add [] key) in
    let nodes_explored := 0%Z in
    while_queue fuel self (mkLocals queue came_from visited nodes_explored).

End BFSSolver.

(** ** A* search: [src/solvers/astar_solver.py] *)

Module AStarSolver.

Record t : Type := mkSolver { max_depth : Z; basic_moves : list string }.

(** [__init__(self, max_depth=8)] *)
Definition init (max_depth : Z) : t :=
  mkSolver max_depth
    ["F"; "F'"; "B"; "B'"; "U"; "U'"; "D"; "D'"; "L"; "L'"; "R"; "R'"].

Definition _cube_state_to_hashable := Solver._cube_state_to_hashable.
Definition _reconstruct_path := Solver._reconstruct_path.

(** [np.sum(face != center_color)] *)
Definition count_differing (face : Face) (center_color : Z) : Z :=
  fold_right (fun x acc => ((if (x =? center_color)%Z then 0 else 1) + acc)%Z)
             0%Z (cells face).

(** The loop of [_heuristic] over the face indices still to visit. *)
Fixpoint _heuristic_loop (idxs : list nat) (misplaced : Z) : M Faces Z :=
  match idxs with
  | [] => ret misplaced
  | face_idx :: idxs' =>
      let* face := getitem face_idx in
      let center_color := c1 (r1 face) in
      let* face := getitem face_idx in
      _heuristic_loop idxs' (misplaced + count_differing face center_color)%Z
  end.

(** [_heuristic(cube)], on the contents of [cube.faces]. *)
Definition _heuristic : M Faces Z := _heuristic_loop (seq 0 6) 0%Z.

(** An entry of the priority queue: [(f_score, count, state, depth)]. *)
Definition entry : Type := (Z * Z * pyval * Z)%type.

(** Tuple order on entries.  The counts are pairwise distinct, so the
    comparison stops at the second component. *)
Definition entry_lt (a b : entry) : bool :=
  let '(fa, ca, _, _) := a in
  let '(fb, cb, _, _) := b in
  ((fa <? fb) || ((fa =? fb) && (ca <? cb)))%Z.

Fixpoint min_entry (best : entry) (h : list entry) : entry :=
  match h with
  | [] => best
  | x :: h' => min_entry (if entry_lt x best then x else best) h'
  end.

Fixpoint remove_entry (e : entry) (h : list entry) : list entry :=
  match h with
  | [] => []
  | x :: h' =>
      if (snd (fst (fst x)) =? snd (fst (fst e)))%Z then h'
      else x :: remove_entry e h'
  end.

(** [heapq]: the array layout of the heap is not modelled, only which entry
    [heappop] returns, the least one. *)
Definition heappush (h : list entry) (e : entry) : list entry := h ++ [e].
Definition heappop (h : list entry) : option (entry * list entry) :=
  match h with
  | [] => None
  | x :: h' => let m := min_entry x h' in Some (m, remove_entry m h)
  end.

Record locals : Type := mkLocals {
  count : Z;
  open_set : list entry;
  came_from : dict (pyval * string);
  g_score : dict Z;
  f_score : dict Z;
  visited : pyset;
  nodes_explored : Z
}.

(** [for move in self.basic_moves: ...] for one popped state. *)
Fixpoint for_moves (current_cube : RubiksCube) (current_state : pyval)
    (depth : Z) (moves : list string) (v : locals) : H locals :=
  match moves with
  | [] => ret v
  | move :: moves' =>
      let* new_cube := RubiksCube_new 3 in
      let* arr := np_copy (faces current_cube) in
      let new_cube := set_faces new_cube arr in
      do* call new_cube (apply_move move) in
      let* new_state := _cube_state_to_hashable new_cube in
      let* g := lift_outcome (dict_getitem (g_score v) current_state) in
      let tentative_g_score := (g + 1)%Z in
      let* known := lift_outcome (dict_contains (g_score v) new_state) in
      let* better :=
        if negb known then ret true
        else let* g' := lift_outcome (dict_getitem (g_score v) new_state) in
             ret (tentative_g_score <? g')%Z in
      if better then
        let* came_from := lift_outcome
                            (dict_setitem (came_from v) new_state (current_state, move)) in
        let* g_score := lift_outcome
                          (dict_setitem (g_score v) new_state tentative_g_score) in
        let* new_h := call new_cube _heuristic in
        let new_f := (tentative_g_score + new_h)%Z in
        let* f_score := lift_outcome (dict_setitem (f_score v) new_state new_f) in
        let* seen := lift_outcome (set_contains (visited v) new_state) in
        if negb seen then
          let* visited := lift_outcome (set_add (visited v) new_state) in
          let count := (count v + 1)%Z in
          let open_set := heappush (open_set v)
                                   (new_f, count, new_state, (depth + 1)%Z) in
          for_moves current_cube current_state depth moves'
                    (mkLocals count open_set came_from g_score f_score visited
                              (nodes_explored v))
        else
          for_moves current_cube current_state depth moves'
                    (mkLocals (count v) (open_set v) came_from g_score f_score
                              (visited v) (nodes_explored v))
      else
        for_moves current_cube current_state depth moves' v
  end.

(** [while open_set: ...] *)
Fixpoint while_open_set (fuel : nat) (self : t) (v : locals) : H solve_result :=
  match fuel with
  | 0 => raise FuelExhausted
  | S fuel' =>
      match heappop (open_set v) with
      | None => ret (false, [], nodes_explored v)
      | Some ((_, _, current_state, depth), open_set') =>
          let v := mkLocals (count v) open_set' (came_from v) (g_score v)
                            (f_score v) (visited v) (nodes_explored v + 1)%Z in
          let* current_cube := RubiksCube_new 3 in
          let* arr := np_array_reshape current_state in
          let current_cube := set_faces current_cube arr in
          let* solved := call current_cube is_solved in
          if solved then
            let* solution := lift_outcome
                               (_reconstruct_path fuel current_state (came_from v)) in
            ret (true, solution, nodes_explored v)
          else if (depth >=? max_depth self)%Z then while_open_set fuel' self v
          else
            let* v' := for_moves current_cube current_state depth
                                 (basic_moves self) v in
            while_open_set fuel' self v'
      end
  end.

Definition solve (self : t) (fuel : nat) (cube : RubiksCube) : H solve_result :=
  let* solved := call cube is_solved in
  if solved then ret (true, [], 0%Z)
  else
    let* cube_copy := RubiksCube_new 3 in
    let* arr := np_copy (faces cube) in
    let cube_copy := set_faces cube_copy arr in
    let* start_state := _cube_state_to_hashable cube_copy in
    let* start_h := call cube_copy _heuristic in
    let count := 0%Z in
    let open_set := [(start_h, count, start_state, 0%Z)] in
    let came_from := [] in
    let* g_score := lift_outcome (dict_setitem [] start_state 0%Z) in
    let* f_score := lift_outcome (dict_setitem [] start_state start_h) in
    let* visited := lift_outcome (set_add [] start_state) in
    let nodes_explored := 0%Z in
    while_open_set fuel self
      (mkLocals count open_set came_from g_score f_score visited nodes_explored).

End AStarSolver.

(** The six colour values of a solved cube. *)
Definition colors : list Z := [0; 1; 2; 3; 4; 5]%Z.

(** What [apply_move] compares with the six face letters: the stripped
    token, cut down to its first character when its second one is an
    apostrophe. *)
Definition dispatched (tok : string) : string :=
  let s := strip tok in
  if (1 <? String.length s)%nat && char_at_is s 1 "'"%char
  then first_char s
  else s.

(** The cube one move away from solved: F applied to the solved cube. *)
Definition after_F : Faces :=
  Eval vm_compute in snd (apply_move "F" init_faces).

(** ** Frame conditions on the store

    [frames n Q m]: run on a store that holds at least [n] arrays, [m] leaves
    the first [n] arrays as they are, whether it returns or raises, and a
    returned value satisfies [Q]. *)
Definition frames {A} (n : nat) (Q : A -> Prop) (m : H A) : Prop :=
  forall (h h' : store) (r : outcome A),
    n <= length h ->
    m h = (r, h') ->
    n <= length h'
    /\ (forall l : loc, l < n -> h' !! l = h !! l)
    /\ (forall a, r = Ok a -> Q a).

Definition any {A} : A -> Prop := fun _ => True.
Definition fresh_loc (n : nat) : loc -> Prop := fun l => n <= l.
Definition fresh_cube (n : nat) : RubiksCube -> Prop := fun c => n <= faces c.

(** A method that only reads [self.faces]. *)
Definition read_only {A} (m : M Faces A) : Prop :=
  forall s, snd (m s) = s.

(** ** Further definitions used by the properties below *)

(** The six face letters [apply_move] dispatches on. *)
Definition face_letters : list string := ["F"; "B"; "U"; "D"; "L"; "R"].

(** A cube whose six faces are uniform, with colours [a] .. [f]. *)
Definition uniform_cube (a b c d e f : Z) : Faces :=
  mkFaces (full_face a) (full_face b) (full_face c)
          (full_face d) (full_face e) (full_face f).

(** A string made of white space only (possibly empty). *)
Definition is_blank (s : string) : bool :=
  forallb py_isspace (list_ascii_of_string s).

(** [strip] on lists of characters. *)
Definition strip_chars (cs : list ascii) : list ascii :=
  rev (lstrip_chars (rev (lstrip_chars cs))).

(** [path_to came_from k ms]: following the parent links of [came_from] from
    the key [k] ends at a key without a parent, and [ms] lists the moves of
    the links followed, the one nearest to that last key first. *)
Inductive path_to (came_from : dict (pyval * string))
  : pyval -> list string -> Prop :=
| path_root (k : pyval) :
    hashable k = true -> lookup_key came_from k = None ->
    path_to came_from k []
| path_step (k parent : pyval) (move : string) (ms : list string) :
    hashable k = true -> lookup_key came_from k = Some (parent, move) ->
    path_to came_from parent ms ->
    path_to came_from k (ms ++ [move]).

(** ** [RubiksCube.__str__] *)

Definition face_names : list string :=
  ["Front"; "Back"; "Up"; "Down"; "Left"; "Right"].
Definition color_names : list string := ["W"; "Y"; "G"; "B"; "R"; "O"].

Definition list_index_error : exn := IndexError "list index out of range".

(** [l[i]] on a Python list: a negative index counts from the end. *)
Definition py_list_getitem {A} (l : list A) (i : Z) : outcome A :=
  let i' := if (i <? 0)%Z then (i + Z.of_nat (length l))%Z else i in
  if (i' <? 0)%Z then Raise list_index_error
  else match nth_error l (Z.to_nat i') with
       | Some x => Ok x
       | None => Raise list_index_error
       end.

(** [sep.join(l)] *)
Fixpoint join (sep : string) (l : list string) : string :=
  match l with
  | [] => EmptyString
  | [x] => x
  | x :: rest => (x ++ sep ++ join sep rest)%string
  end.

(** A comprehension whose element expression may raise: left to right, the
    first exception ends it. *)
Fixpoint omapM {A B} (f : A -> outcome B) (l : list A) : outcome (list B) :=
  match l with
  | [] => Ok []
  | x :: l' =>
      match f x with
      | Raise e => Raise e
      | Ok y => match omapM f l' with
                | Raise e => Raise e
                | Ok ys => Ok (y :: ys)
                end
      end
  end.

(** [' '.join(color_names[color] for color in row)] *)
Definition str_row (row : Row) : outcome string :=
  match omapM (py_list_getitem color_names) [c0 row; c1 row; c2 row] with
  | Raise e => Raise e
  | Ok names => Ok (join " " names)
  end.

(** The loop of [__str__] over [enumerate(self.faces)], from index [i]. *)
Fixpoint str_loop (i : Z) (faces : list Face) (result : list string)
  : outcome (list string) :=
  match faces with
  | [] => Ok result
  | face :: rest =>
      match py_list_getitem face_names i with
      | Raise e => Raise e
      | Ok name =>
          let result := result ++ [(name ++ ":")%string] in
          match omapM str_row [r0 face; r1 face; r2 face] with
          | Raise e => Raise e
          | Ok rows =>
              let result := result ++ rows in
              let result := result ++ [EmptyString] in
              str_loop (i + 1)%Z rest result
          end
      end
  end.

(** The line feed character, as a string. *)
Definition newline : string := String (ascii_of_nat 10) EmptyString.

Definition __str__ : M Faces string :=
  let* fs := get_state in
  lift_outcome
    match str_loop 0%Z (face_list fs) [] with
    | Raise e => Raise e
    | Ok result => Ok (join newline result)
    end.

(** The sticker values [color_names] can be indexed with. *)
Definition printable (x : Z) : Prop := (-6 <= x <= 5)%Z.

(** The solved cube after R and F', and after R, F' and U. *)
Definition after_RF' : Faces :=
  Eval vm_compute in snd (apply_move "F'" after_R).
Definition after_RF'U : Faces :=
  Eval vm_compute in snd (apply_move "U" after_RF').

(** The values an int8 array holds, and a strip of such values. *)
Definition int8 (x : Z) : Prop := (-128 <= x <= 127)%Z.
Definition int8_row (e : Row) : Prop := int8 (c0 e) /\ int8 (c1 e) /\ int8 (c2 e).

(** * Properties *)

(** ** Tactics for the cube *)

(** Name the 54 stickers of a state. *)
Ltac destruct_face f := destruct f as [[? ? ?] [? ? ?] [? ? ?]].
Ltac destruct_faces c :=
  let a := fresh "a" in let b := fresh "b" in let c' := fresh "c" in
  let d := fresh "d" in let e := fresh "e" in let f := fresh "f" in
  destruct c as [a b c' d e f];
  destruct_face a; destruct_face b; destruct_face c';
  destruct_face d; destruct_face e; destruct_face f.

(** One case per token of [standard_moves]. *)
Ltac each_move H :=
  unfold standard_moves in H; simpl in H;
  repeat (destruct H as [<- | H]); [ .. | contradiction ].

(** [split_at a l]: the parts of [l] before and after the first [a]. *)
Ltac split_at a l :=
  lazymatch l with
  | a :: ?t => constr:((@nil Z, t))
  | ?b :: ?t =>
      let p := split_at a t in
      lazymatch p with
      | (?l1, ?l2) => constr:((b :: l1, l2))
      end
  end.

(** Two explicit lists with the same elements in another order. *)
Ltac perm_lists :=
  lazymatch goal with
  | |- Permutation [] [] => apply perm_nil
  | |- Permutation (?a :: ?l) ?r =>
      let p := split_at a r in
      lazymatch p with
      | (?l1, ?l2) =>
          change r with (l1 ++ a :: l2);
          apply Permutation_cons_app; cbn [app]; perm_lists
      end
  end.

(** ** The moves return normally and permute the stickers *)

Section Moves.

Variable c : Faces.

Lemma move_F_ok (prime : bool) : fst (move_F prime c) = Ok tt.
Proof. destruct_faces c; destruct prime; reflexivity. Qed.
Lemma move_B_ok (prime : bool) : fst (move_B prime c) = Ok tt.
Proof. destruct_faces c; destruct prime; reflexivity. Qed.
Lemma move_U_ok (prime : bool) : fst (move_U prime c) = Ok tt.
Proof. destruct_faces c; destruct prime; reflexivity. Qed.
Lemma move_D_ok (prime : bool) : fst (move_D prime c) = Ok tt.
Proof. destruct_faces c; destruct prime; reflexivity. Qed.
Lemma move_L_ok (prime : bool) : fst (move_L prime c) = Ok tt.
Proof. destruct_faces c; destruct prime; reflexivity. Qed.
Lemma move_R_ok (prime : bool) : fst (move_R prime c) = Ok tt.
Proof. destruct_faces c; destruct prime; reflexivity. Qed.

(** Each of the twelve tokens is accepted. *)
Lemma apply_move_standard_ok (m : string) :
  In m standard_moves -> apply_move m c = (Ok tt, snd (apply_move m c)).
Proof.
  intros Hm. destruct_faces c. each_move Hm; vm_compute; reflexivity.
Qed.

(** A move relocates stickers and does nothing else. *)
Lemma apply_move_permutes (m : string) :
  In m standard_moves ->
  Permutation (stickers c) (stickers (snd (apply_move m c))).
Proof.
  intros Hm. destruct_faces c.
  each_move Hm; vm_compute; perm_lists.
Qed.

End Moves.

(** ** A call of [apply_move] that raises *)

(** [apply_move] raises only from its last branch, before any mutation: the
    exception is a [ValueError] and the cube is as it was. *)
Lemma apply_move_raise (tok : string) (c c' : Faces) (e : exn) :
  apply_move tok c = (Raise e, c') ->
  c' = c /\ exists msg, e = ValueError msg.
Proof.
  unfold apply_move.
  destruct ((1 <? String.length (strip tok))%nat && char_at_is (strip tok) 1 "'"%char).
  all: repeat
         match goal with
         | |- context [if String.eqb ?a ?b then _ else _] =>
             destruct (String.eqb a b)
         end.
  all: intros Hr.
  all: try (unfold raise in Hr; inversion Hr; subst; split; [reflexivity | eauto]).
  all: exfalso;
    lazymatch type of Hr with
    | move_F ?p ?s = _ => pose proof (move_F_ok s p) as Hok
    | move_B ?p ?s = _ => pose proof (move_B_ok s p) as Hok
    | move_U ?p ?s = _ => pose proof (move_U_ok s p) as Hok
    | move_D ?p ?s = _ => pose proof (move_D_ok s p) as Hok
    | move_L ?p ?s = _ => pose proof (move_L_ok s p) as Hok
    | move_R ?p ?s = _ => pose proof (move_R_ok s p) as Hok
    end;
    rewrite Hr in Hok; discriminate Hok.
Qed.

(** The loop of [apply_algorithm] over tokens that are all accepted. *)
Lemma forM_moves_from (toks : list string) (c c' : Faces) :
  moves_from c toks c' ->
  forall (rest : list string),
    forM_ (toks ++ rest) (fun move => apply_move move) c
    = forM_ rest (fun move => apply_move move) c'.
Proof.
  induction 1 as [c | c c1 c2 tok toks Hstep _ IH]; intros rest.
  - reflexivity.
  - cbn [app forM_]. unfold bind at 1. rewrite Hstep. apply IH.
Qed.

(** ** Moves: inverses, cycles and centres *)

(** C2: for every state and each of the twelve moves, the move followed by
    its inverse (same letter, primedness flipped) gives the state back, and
    so does the same move applied four times in a row. *)
Theorem move_inverse_and_fourfold (c : Faces) (m : string) :
  In m standard_moves ->
  (exists c1, apply_move m c = (Ok tt, c1)
              /\ apply_move (inverse_move m) c1 = (Ok tt, c))
  /\ (do* apply_move m in do* apply_move m in do* apply_move m in apply_move m) c
     = (Ok tt, c).
Proof.
  intros Hm.
  split; [ exists (snd (apply_move m c)); split;
           [ exact (apply_move_standard_ok c m Hm) | ] | ].
  all: destruct_faces c; each_move Hm; vm_compute; reflexivity.
Qed.

Lemma move_inverse_and_fourfold_witness :
  (exists c1, apply_move "R'" init_faces = (Ok tt, c1)
              /\ apply_move (inverse_move "R'") c1 = (Ok tt, init_faces))
  /\ (do* apply_move "R'" in do* apply_move "R'" in
      do* apply_move "R'" in apply_move "R'") init_faces
     = (Ok tt, init_faces).
Proof.
  apply (move_inverse_and_fourfold init_faces "R'").
  unfold standard_moves; simpl; tauto.
Defined.

(** C3: from the solved cube, the 24 moves of "R U R' U'" repeated six times
    lead back to a state on which [is_solved] is true. *)
Theorem sexy_move_six_times :
  exists c, apply_algorithm
              "R U R' U' R U R' U' R U R' U' R U R' U' R U R' U' R U R' U'"
              init_faces = (Ok tt, c)
            /\ is_solved c = (Ok true, c).
Proof.
  eexists; split; vm_compute; reflexivity.
Qed.

(** The same through six separate calls of [apply_algorithm]. *)
Lemma sexy_move_six_calls :
  let sexy := apply_algorithm "R U R' U'" in
  exists c, (do* sexy in do* sexy in do* sexy in do* sexy in do* sexy in sexy)
              init_faces = (Ok tt, c)
            /\ is_solved c = (Ok true, c).
Proof.
  eexists; split; vm_compute; reflexivity.
Qed.

(** C9: each of the twelve moves leaves the centre sticker, position (1,1),
    of all six faces as it was. *)
Theorem moves_fix_centers (c : Faces) (m : string) :
  In m standard_moves ->
  exists c', apply_move m c = (Ok tt, c')
             /\ map center (face_list c') = map center (face_list c).
Proof.
  intros Hm. exists (snd (apply_move m c)).
  split; [ exact (apply_move_standard_ok c m Hm) | ].
  destruct_faces c; each_move Hm; vm_compute; reflexivity.
Qed.

Lemma moves_fix_centers_witness :
  exists c', apply_move "U" init_faces = (Ok tt, c')
             /\ map center (face_list c') = map center (face_list init_faces).
Proof.
  apply (moves_fix_centers init_faces "U").
  unfold standard_moves; simpl; tauto.
Defined.

(** ** Sticker counts *)

(** Every state reachable from the solved cube has nine stickers of each
    colour. *)
Lemma reachable_nine_each (c : Faces) :
  reachable c ->
  forall color, In color colors -> count_occ Z.eq_dec (stickers c) color = 9.
Proof.
  induction 1 as [ | c c' m _ IH Hm Hstep ]; intros color Hcolor.
  - unfold colors in Hcolor; simpl in Hcolor.
    repeat (destruct Hcolor as [<- | Hcolor]); [ reflexivity .. | contradiction ].
  - rewrite <- (IH color Hcolor). symmetry.
    apply (proj1 (Permutation_count_occ Z.eq_dec _ _)).
    replace c' with (snd (apply_move m c)) by (rewrite Hstep; reflexivity).
    apply apply_move_permutes; exact Hm.
Qed.

(** C4: a move leaves the multiset of the 54 stickers unchanged, and in every
    state reachable from the solved cube each of the six colours occurs
    exactly nine times. *)
Theorem sticker_conservation :
  (forall (c : Faces) (m : string),
      In m standard_moves ->
      exists c', apply_move m c = (Ok tt, c')
                 /\ Permutation (stickers c) (stickers c'))
  /\ (forall c : Faces,
         reachable c ->
         forall color, In color colors ->
                       count_occ Z.eq_dec (stickers c) color = 9).
Proof.
  split.
  - intros c m Hm. exists (snd (apply_move m c)). split.
    + apply apply_move_standard_ok; exact Hm.
    + apply apply_move_permutes; exact Hm.
  - exact reachable_nine_each.
Qed.

Lemma sticker_conservation_witness :
  (exists c', apply_move "L'" init_faces = (Ok tt, c')
              /\ Permutation (stickers init_faces) (stickers c'))
  /\ count_occ Z.eq_dec (stickers (snd (apply_move "B" init_faces))) 4%Z = 9.
Proof.
  split.
  - apply (proj1 sticker_conservation init_faces "L'").
    unfold standard_moves; simpl; tauto.
  - apply (proj2 sticker_conservation).
    + apply (reachable_move init_faces _ "B").
      * apply reachable_init.
      * unfold standard_moves; simpl; tauto.
      * reflexivity.
    + unfold colors; simpl; tauto.
Defined.

(** ** The heuristic and [is_solved] *)

Lemma count_differing_sum_nonneg (l : list Z) (v : Z) :
  (0 <= fold_right (fun x acc => (if (x =? v)%Z then 0 else 1) + acc) 0 l)%Z.
Proof.
  induction l as [ | x l IH ]; simpl; [ lia | ].
  destruct (x =? v)%Z; lia.
Qed.

Lemma count_differing_sum_zero (l : list Z) (v : Z) :
  fold_right (fun x acc => (if (x =? v)%Z then 0 else 1) + acc)%Z 0%Z l = 0%Z
  <-> forall x, In x l -> x = v.
Proof.
  induction l as [ | y l IH ]; simpl.
  - split; [ intros _ x [] | reflexivity ].
  - pose proof (count_differing_sum_nonneg l v) as Hnn.
    destruct (Z.eqb_spec y v) as [-> | Hne]; split.
    + intros Hs x [<- | Hx]; [ reflexivity | ].
      apply IH; [ lia | exact Hx ].
    + intros Hall.
      assert (Hl : forall x, In x l -> x = v) by (intros x Hx; apply Hall; right; exact Hx).
      apply IH in Hl. lia.
    + intros Hs. lia.
    + intros Hall. exfalso. apply Hne. apply Hall. left; reflexivity.
Qed.

(** A face has no sticker differing from its centre exactly when
    [np.all(face == face[0, 0])]. *)
Lemma count_differing_uniform (f : Face) :
  AStarSolver.count_differing f (c1 (r1 f)) = 0%Z <-> face_uniform f = true.
Proof.
  unfold AStarSolver.count_differing, face_uniform.
  rewrite count_differing_sum_zero, forallb_forall.
  assert (Hc : In (c1 (r1 f)) (cells f)) by (unfold cells; simpl; tauto).
  assert (H0 : In (c0 (r0 f)) (cells f)) by (unfold cells; simpl; tauto).
  split.
  - intros Hall x Hx. apply Z.eqb_eq.
    rewrite (Hall x Hx). symmetry. apply Hall. exact H0.
  - intros Hall x Hx.
    apply Hall in Hx. apply Hall in Hc. apply Z.eqb_eq in Hx, Hc. congruence.
Qed.

Lemma count_differing_nonneg (f : Face) (v : Z) :
  (0 <= AStarSolver.count_differing f v)%Z.
Proof. apply count_differing_sum_nonneg. Qed.

Lemma is_solved_loop_Forall (l : list Face) :
  is_solved_loop l = true <-> Forall (fun f => face_uniform f = true) l.
Proof.
  induction l as [ | f l IH ]; simpl.
  - split; [ constructor | reflexivity ].
  - rewrite Forall_cons_iff, <- IH.
    destruct (face_uniform f); simpl; intuition discriminate.
Qed.

(** C5: for every state, the heuristic of the A* solver is zero if and only
    if [is_solved] is true. *)
Theorem heuristic_zero_iff_solved (fs : Faces) :
  exists h, AStarSolver._heuristic fs = (Ok h, fs)
            /\ (h = 0%Z <-> is_solved fs = (Ok true, fs)).
Proof.
  assert (Hs : is_solved fs = (Ok true, fs) <-> is_solved_faces fs = true).
  { unfold is_solved, bind, get_state, ret.
    split; [ intros H; inversion H; reflexivity | intros ->; reflexivity ]. }
  destruct fs as [a b c d e f].
  exists (0 + AStarSolver.count_differing a (c1 (r1 a))
            + AStarSolver.count_differing b (c1 (r1 b))
            + AStarSolver.count_differing c (c1 (r1 c))
            + AStarSolver.count_differing d (c1 (r1 d))
            + AStarSolver.count_differing e (c1 (r1 e))
            + AStarSolver.count_differing f (c1 (r1 f)))%Z.
  split; [ reflexivity | ].
  rewrite Hs. unfold is_solved_faces, face_list.
  cbn [f0 f1 f2 f3 f4 f5].
  rewrite is_solved_loop_Forall, !Forall_cons_iff, <- !count_differing_uniform.
  pose proof (count_differing_nonneg a (c1 (r1 a))).
  pose proof (count_differing_nonneg b (c1 (r1 b))).
  pose proof (count_differing_nonneg c (c1 (r1 c))).
  pose proof (count_differing_nonneg d (c1 (r1 d))).
  pose proof (count_differing_nonneg e (c1 (r1 e))).
  pose proof (count_differing_nonneg f (c1 (r1 f))).
  split.
  - intros Hz. repeat split; try lia. constructor.
  - intros (Ha & Hb & Hc & Hd & He & Hf & _). lia.
Qed.

(** ** Move tokens *)

(** A token is rejected when that string is not a face letter; the cube is
    not touched. *)
Lemma apply_move_rejects (tok : string) (c : Faces) :
  ~ In (dispatched tok) ["F"; "B"; "U"; "D"; "L"; "R"] ->
  apply_move tok c
  = (Raise (ValueError ("Invalid move: " ++ dispatched tok)), c).
Proof.
  unfold apply_move, dispatched.
  destruct ((1 <? String.length (strip tok))%nat && char_at_is (strip tok) 1 "'"%char).
  all: intros Hnot.
  all: repeat
         match goal with
         | |- context [String.eqb ?a ?b] =>
             destruct (String.eqb_spec a b) as [Heq | _];
             [ exfalso; apply Hnot; rewrite Heq; simpl; tauto | ]
         end.
  all: reflexivity.
Qed.

(** C6: a token that is not a face letter optionally followed by one
    apostrophe should be rejected.  The token F'x is not of that form, yet
    [apply_move] accepts it and performs F'; the sibling token Fx is
    rejected. *)
Theorem apply_move_accepts_trailing_characters (c : Faces) :
  ~ In (strip "F'x") standard_moves
  /\ apply_move "F'x" c = apply_move "F'" c
  /\ fst (apply_move "F'x" c) = Ok tt
  /\ apply_move "Fx" c = (Raise (ValueError "Invalid move: Fx"), c).
Proof.
  split; [ | split; [ | split ] ].
  - vm_compute. intros H.
    repeat (destruct H as [H | H]; [ discriminate H | ]). exact H.
  - reflexivity.
  - change (apply_move "F'x" c) with (move_F true c). apply move_F_ok.
  - reflexivity.
Qed.

(** ** [apply_algorithm] *)

(** X22: [apply_algorithm] applies the tokens of [algorithm.split()] from
    left to right; at the first token that [apply_move] rejects, the call
    raises that token's exception, a [ValueError], the cube is in the state
    the earlier, accepted tokens produced, and no later token is applied. *)
Theorem apply_algorithm_fails_fast
    (algorithm : string) (c c1 c1' : Faces)
    (pre rest : list string) (bad : string) (e : exn) :
  split algorithm = pre ++ bad :: rest ->
  moves_from c pre c1 ->
  apply_move bad c1 = (Raise e, c1') ->
  apply_algorithm algorithm c = (Raise e, c1)
  /\ exists msg, e = ValueError msg.
Proof.
  intros Hsplit Hpre Hbad.
  destruct (apply_move_raise bad c1 c1' e Hbad) as [-> Hmsg].
  split; [ | exact Hmsg ].
  unfold apply_algorithm. rewrite Hsplit.
  rewrite (forM_moves_from pre c c1 Hpre).
  cbn [forM_]. unfold bind. rewrite Hbad. reflexivity.
Qed.

Lemma apply_algorithm_fails_fast_witness :
  apply_algorithm "R U X F" init_faces
  = (Raise (ValueError "Invalid move: X"), after_RU)
  /\ exists msg, ValueError "Invalid move: X" = ValueError msg.
Proof.
  apply (apply_algorithm_fails_fast
           "R U X F" init_faces after_RU after_RU
           ["R"; "U"] ["F"] "X" (ValueError "Invalid move: X")).
  - vm_compute; reflexivity.
  - apply (moves_cons init_faces after_R after_RU "R" ["U"]);
      [ vm_compute; reflexivity | ].
    apply (moves_cons after_R after_RU after_RU "U" []);
      [ vm_compute; reflexivity | ].
    apply moves_nil.
  - vm_compute; reflexivity.
Defined.

(** When no token is rejected, all of them are applied in order. *)
Lemma apply_algorithm_all_valid (algorithm : string) (c c' : Faces) :
  moves_from c (split algorithm) c' ->
  apply_algorithm algorithm c = (Ok tt, c').
Proof.
  intros Hall. unfold apply_algorithm.
  rewrite <- (app_nil_r (split algorithm)).
  rewrite (forM_moves_from _ c c' Hall). reflexivity.
Qed.

(** C7: [apply_algorithm] should fail on the first token that is not a face
    letter optionally followed by one apostrophe, with the cube as the moves
    before that token left it.  The token F'x is not of that form, yet on
    every cube "R F'x U" returns normally, having applied R, F' and U; and
    "R F'x X U" raises only at X, with R and F' applied, where the cube after
    R alone is a different one. *)
Theorem apply_algorithm_passes_malformed_token (c : Faces) :
  split "R F'x U" = ["R"; "F'x"; "U"]
  /\ In "R" standard_moves
  /\ ~ In "F'x" standard_moves
  /\ apply_algorithm "R F'x U" c = apply_algorithm "R F' U" c
  /\ fst (apply_algorithm "R F'x U" c) = Ok tt
  /\ apply_algorithm "R F'x X U" c
     = (Raise (ValueError "Invalid move: X"), snd (apply_algorithm "R F'" c))
  /\ apply_algorithm "R F'x U" init_faces = (Ok tt, after_RF'U)
  /\ apply_algorithm "R F'x X U" init_faces
     = (Raise (ValueError "Invalid move: X"), after_RF')
  /\ after_RF' <> after_R.
Proof.
  split; [ vm_compute; reflexivity | ].
  split; [ unfold standard_moves; simpl; tauto | ].
  split.
  { vm_compute. intros H.
    repeat (destruct H as [H | H]; [ discriminate H | ]). exact H. }
  split; [ destruct_faces c; vm_compute; reflexivity | ].
  split; [ destruct_faces c; vm_compute; reflexivity | ].
  split; [ destruct_faces c; vm_compute; reflexivity | ].
  split; [ vm_compute; reflexivity | ].
  split; [ vm_compute; reflexivity | ].
  vm_compute. discriminate.
Qed.

(** ** The store: what a solver may touch *)

Section Frames.

Variable n : nat.

Lemma frames_ret {A} (Q : A -> Prop) (a : A) : Q a -> frames n Q (ret a).
Proof.
  intros Ha h h' r Hn Hrun. unfold ret in Hrun. inversion Hrun; subst.
  split; [ exact Hn | split; [ reflexivity | ] ].
  intros a' Heq. inversion Heq; subst. exact Ha.
Qed.

Lemma frames_raise {A} (Q : A -> Prop) (e : exn) : frames n Q (raise e).
Proof.
  intros h h' r Hn Hrun. unfold raise in Hrun. inversion Hrun; subst.
  split; [ exact Hn | split; [ reflexivity | ] ].
  intros a' Heq. discriminate Heq.
Qed.

Lemma frames_lift {A} (o : outcome A) : frames n any (lift_outcome o).
Proof.
  intros h h' r Hn Hrun. unfold lift_outcome in Hrun. inversion Hrun; subst.
  split; [ exact Hn | split; [ reflexivity | ] ].
  intros a' _. exact I.
Qed.

Lemma frames_weaken {A} (Q Q' : A -> Prop) (m : H A) :
  frames n Q m -> (forall a, Q a -> Q' a) -> frames n Q' m.
Proof.
  intros Hm Himp h h' r Hn Hrun.
  destruct (Hm h h' r Hn Hrun) as (Hlen & Hold & Hq).
  split; [ exact Hlen | split; [ exact Hold | ] ].
  intros a Ha. apply Himp, Hq, Ha.
Qed.

Lemma frames_bind {A B} (Q : A -> Prop) (R : B -> Prop)
    (m : H A) (k : A -> H B) :
  frames n Q m -> (forall a, Q a -> frames n R (k a)) ->
  frames n R (bind m k).
Proof.
  intros Hm Hk h h' r Hn Hrun. unfold bind in Hrun.
  destruct (m h) as [[a | e] h1] eqn:Hmh.
  - destruct (Hm h h1 (Ok a) Hn Hmh) as (Hlen1 & Hold1 & Hq).
    destruct (Hk a (Hq a eq_refl) h1 h' r Hlen1 Hrun) as (Hlen & Hold & Hr).
    split; [ exact Hlen | split; [ | exact Hr ] ].
    intros l Hl. rewrite (Hold l Hl). apply Hold1, Hl.
  - inversion Hrun; subst.
    destruct (Hm h h' (Raise e) Hn Hmh) as (Hlen1 & Hold1 & _).
    split; [ exact Hlen1 | split; [ exact Hold1 | ] ].
    intros a Ha. discriminate Ha.
Qed.

(** A new array gets a location past every old one. *)
Lemma frames_alloc (a : Faces) : frames n (fresh_loc n) (alloc a).
Proof.
  intros h h' r Hn Hrun. unfold alloc in Hrun. inversion Hrun; subst.
  split; [ rewrite length_app; simpl; lia | split ].
  - intros l Hl. apply lookup_app_l. lia.
  - intros l Heq. inversion Heq; subst. exact Hn.
Qed.

Lemma frames_load (l : loc) : frames n any (load l).
Proof.
  intros h h' r Hn Hrun. unfold load in Hrun.
  destruct (h !! l); inversion Hrun; subst.
  all: split; [ exact Hn | split; [ reflexivity | intros; exact I ] ].
Qed.

(** Writing to an array allocated after the first [n]. *)
Lemma frames_at_loc_fresh {A} (l : loc) (m : M Faces A) :
  n <= l -> frames n any (at_loc l m).
Proof.
  intros Hfresh h h' r Hn Hrun. unfold at_loc in Hrun.
  destruct (h !! l) as [a | ].
  - destruct (m a) as [r' a'] eqn:Hma. inversion Hrun; subst.
    split; [ rewrite length_insert; exact Hn | split; [ | intros; exact I ] ].
    intros l' Hl'. apply list_lookup_insert_ne. lia.
  - inversion Hrun; subst.
    split; [ exact Hn | split; [ reflexivity | intros; exact I ] ].
Qed.

(** Reading any array, old or new. *)
Lemma frames_at_loc_read_only {A} (l : loc) (m : M Faces A) :
  read_only m -> frames n any (at_loc l m).
Proof.
  intros Hro h h' r Hn Hrun. unfold at_loc in Hrun.
  destruct (h !! l) as [a | ] eqn:Hl.
  - pose proof (Hro a) as Hsame.
    destruct (m a) as [r' a'] eqn:Hma. simpl in Hsame. subst a'.
    inversion Hrun; subst.
    rewrite (list_insert_id h l a Hl).
    split; [ exact Hn | split; [ reflexivity | intros; exact I ] ].
  - inversion Hrun; subst.
    split; [ exact Hn | split; [ reflexivity | intros; exact I ] ].
Qed.

Lemma frames_RubiksCube_new (size : Z) :
  frames n (fresh_cube n) (RubiksCube_new size).
Proof.
  unfold RubiksCube_new. destruct (negb (size =? 3)%Z).
  - apply frames_raise.
  - eapply frames_bind; [ apply frames_alloc | ].
    intros l Hl. apply frames_ret. exact Hl.
Qed.

Lemma frames_np_copy (arr : loc) : frames n (fresh_loc n) (np_copy arr).
Proof.
  unfold np_copy. eapply frames_bind; [ apply frames_load | ].
  intros a _. apply frames_alloc.
Qed.

Lemma frames_np_array_reshape (state : pyval) :
  frames n (fresh_loc n) (np_array_reshape state).
Proof.
  unfold np_array_reshape. destruct (faces_of_pyval state).
  - apply frames_alloc.
  - apply frames_raise.
Qed.

End Frames.

(** *** Methods that only read the cube *)

Lemma read_only_is_solved : read_only is_solved.
Proof. intros s. reflexivity. Qed.

Lemma read_only_key :
  read_only (let* fs := get_state in
             ret (PTuple (map tuple_of_face (face_list fs)))).
Proof. intros s. reflexivity. Qed.

Lemma read_only_heuristic_loop (idxs : list nat) (misplaced : Z) :
  read_only (AStarSolver._heuristic_loop idxs misplaced).
Proof.
  revert misplaced. induction idxs as [ | i idxs IH ]; intros misplaced s.
  - reflexivity.
  - cbn [AStarSolver._heuristic_loop]. unfold bind, getitem.
    destruct (faces_get s i) as [face | ] eqn:Hface; cbn;
      [ rewrite Hface; apply IH | reflexivity ].
Qed.

Lemma read_only_heuristic : read_only AStarSolver._heuristic.
Proof. apply read_only_heuristic_loop. Qed.

Lemma frames_key (n : nat) (cube : RubiksCube) :
  frames n any (Solver._cube_state_to_hashable cube).
Proof. apply frames_at_loc_read_only, read_only_key. Qed.

(** *** The loops of the two solvers *)

(** The calls a solver makes: allocations, reads, and writes to a cube known
    to be new. *)
Ltac frames_prim :=
  first
    [ apply frames_RubiksCube_new
    | apply frames_np_copy
    | apply frames_np_array_reshape
    | apply frames_key
    | apply frames_lift
    | unfold call; apply frames_at_loc_fresh;
      unfold fresh_cube, fresh_loc in *; simpl; lia
    | unfold call; apply frames_at_loc_read_only;
      first [ apply read_only_is_solved | apply read_only_heuristic ] ].

(** Follow the control flow of a computation; [IH] covers the recursive
    calls. *)
Ltac frames_go IH :=
  cbv zeta;
  try lazymatch goal with
      | |- frames _ ?Q _ => is_evar Q; unify Q (@any _)
      end;
  first
    [ apply IH
    | apply frames_ret; exact I
    | apply frames_raise
    | frames_prim
    | eapply frames_bind;
      [ first [ frames_prim | frames_go IH ] | intros ? ?; frames_go IH ]
    | lazymatch goal with
      | |- frames _ _ (if ?b then _ else _) => destruct b; frames_go IH
      | |- frames _ _ (match ?x with _ => _ end) => destruct x; frames_go IH
      end ].

Lemma frames_bfs_for_moves (n fuel : nat) (current_state : pyval) (depth : Z)
    (moves : list string) :
  forall v, frames n any (BFSSolver.for_moves fuel current_state depth moves v).
Proof.
  induction moves as [ | move moves IH ]; intros v; cbn [BFSSolver.for_moves].
  - apply frames_ret; exact I.
  - unfold BFSSolver._cube_state_to_hashable. frames_go IH.
Qed.

Lemma frames_bfs_while_queue (n fuel : nat) (self : BFSSolver.t) :
  forall v, frames n any (BFSSolver.while_queue fuel self v).
Proof.
  induction fuel as [ | fuel IH ]; intros v; cbn [BFSSolver.while_queue].
  - apply frames_raise.
  - destruct (BFSSolver.queue v) as [ | [current_state depth] queue' ].
    + apply frames_ret; exact I.
    + cbv zeta. destruct (depth >=? BFSSolver.max_depth self)%Z; [ apply IH | ].
      eapply frames_bind; [ apply frames_bfs_for_moves | ].
      intros [v' | result] _; [ apply IH | apply frames_ret; exact I ].
Qed.

Lemma frames_bfs_solve (n fuel : nat) (self : BFSSolver.t) (cube : RubiksCube) :
  frames n any (BFSSolver.solve self fuel cube).
Proof.
  unfold BFSSolver.solve, BFSSolver._cube_state_to_hashable.
  frames_go (frames_bfs_while_queue n fuel self).
Qed.

Lemma frames_astar_for_moves (n : nat) (current_cube : RubiksCube)
    (current_state : pyval) (depth : Z) (moves : list string) :
  forall v,
    frames n any
           (AStarSolver.for_moves current_cube current_state depth moves v).
Proof.
  induction moves as [ | move moves IH ]; intros v; cbn [AStarSolver.for_moves].
  - apply frames_ret; exact I.
  - unfold AStarSolver._cube_state_to_hashable. frames_go IH.
Qed.

Lemma frames_astar_while_open_set (n fuel : nat) (self : AStarSolver.t) :
  forall v, frames n any (AStarSolver.while_open_set fuel self v).
Proof.
  induction fuel as [ | fuel IH ]; intros v; cbn [AStarSolver.while_open_set].
  - apply frames_raise.
  - destruct (AStarSolver.heappop (AStarSolver.open_set v))
      as [ [[[[f count] current_state] depth] open_set'] | ].
    + cbv zeta.
      eapply frames_bind; [ apply frames_RubiksCube_new | intros c0 Hc0 ].
      eapply frames_bind; [ apply frames_np_array_reshape | intros arr Harr ].
      eapply frames_bind;
        [ unfold call; apply frames_at_loc_read_only, read_only_is_solved | ].
      intros solved _. destruct solved.
      * eapply frames_bind; [ apply frames_lift | ].
        intros solution _. apply frames_ret; exact I.
      * destruct (depth >=? AStarSolver.max_depth self)%Z; [ apply IH | ].
        eapply frames_bind; [ apply frames_astar_for_moves | ].
        intros v' _. apply IH.
    + apply frames_ret; exact I.
Qed.

Lemma frames_astar_solve (n fuel : nat) (self : AStarSolver.t)
    (cube : RubiksCube) :
  frames n any (AStarSolver.solve self fuel cube).
Proof.
  unfold AStarSolver.solve, AStarSolver._cube_state_to_hashable.
  frames_go (frames_astar_while_open_set n fuel self).
Qed.

(** ** The solvers on solved and unsolved cubes *)

(** Running a read-only method leaves the store as it is. *)
Lemma call_is_solved (cube : RubiksCube) (h : list Faces) (a : Faces) :
  h !! faces cube = Some a ->
  call cube is_solved h = (Ok (is_solved_faces a), h).
Proof.
  intros Ha. unfold call, at_loc. rewrite Ha.
  unfold is_solved, bind, get_state, ret.
  rewrite (list_insert_id h (faces cube) a Ha). reflexivity.
Qed.

(** The state key of a cube is never hashable: its innermost components are
    arrays. *)
Lemma state_key_unhashable (fs : Faces) :
  hashable (PTuple (map tuple_of_face (face_list fs))) = false.
Proof. reflexivity. Qed.

(** On every cube that is not solved, [BFSSolver.solve] raises [TypeError]
    when it builds the set [visited], having allocated the copy only. *)
Lemma bfs_solve_unsolved (self : BFSSolver.t) (fuel : nat)
    (cube : RubiksCube) (h : list Faces) (a : Faces) :
  h !! faces cube = Some a ->
  is_solved_faces a = false ->
  BFSSolver.solve self fuel cube h
  = (Raise unhashable, h ++ [init_faces] ++ [a]).
Proof.
  intros Ha Hunsolved. unfold BFSSolver.solve.
  unfold bind at 1. rewrite (call_is_solved cube h a Ha), Hunsolved.
  unfold bind at 1. cbn [RubiksCube_new Z.eqb Pos.eqb negb].
  unfold bind at 1. unfold alloc at 1. unfold ret at 1.
  unfold bind at 1. unfold np_copy, bind at 1, load.
  rewrite (lookup_app_l h [init_faces] (faces cube))
    by (apply lookup_lt_Some in Ha; exact Ha).
  rewrite Ha. unfold alloc.
  assert (Hcopy : ((h ++ [init_faces]) ++ [a]) !! length (h ++ [init_faces])
                  = Some a).
  { rewrite lookup_app_r by lia. rewrite Nat.sub_diag. reflexivity. }
  unfold BFSSolver._cube_state_to_hashable, Solver._cube_state_to_hashable,
    call, at_loc, set_faces; cbn [faces].
  unfold bind at 1. rewrite Hcopy.
  unfold bind at 1, get_state, ret at 1.
  rewrite (list_insert_id _ _ a Hcopy).
  unfold bind at 1. rewrite Hcopy.
  unfold bind at 1, ret at 1.
  rewrite (list_insert_id _ _ a Hcopy).
  unfold bind at 1, lift_outcome, set_add, dict_setitem, check_hash.
  rewrite state_key_unhashable.
  rewrite <- app_assoc. reflexivity.
Qed.

(** The same for [AStarSolver.solve], which raises when it builds the
    dictionary [g_score]. *)
Lemma astar_solve_unsolved (self : AStarSolver.t) (fuel : nat)
    (cube : RubiksCube) (h : list Faces) (a : Faces) :
  h !! faces cube = Some a ->
  is_solved_faces a = false ->
  AStarSolver.solve self fuel cube h
  = (Raise unhashable, h ++ [init_faces] ++ [a]).
Proof.
  intros Ha Hunsolved. unfold AStarSolver.solve.
  unfold bind at 1. rewrite (call_is_solved cube h a Ha), Hunsolved.
  unfold bind at 1. cbn [RubiksCube_new Z.eqb Pos.eqb negb].
  unfold bind at 1. unfold alloc at 1. unfold ret at 1.
  unfold bind at 1. unfold np_copy, bind at 1, load.
  rewrite (lookup_app_l h [init_faces] (faces cube))
    by (apply lookup_lt_Some in Ha; exact Ha).
  rewrite Ha. unfold alloc.
  assert (Hcopy : ((h ++ [init_faces]) ++ [a]) !! length (h ++ [init_faces])
                  = Some a).
  { rewrite lookup_app_r by lia. rewrite Nat.sub_diag. reflexivity. }
  unfold AStarSolver._cube_state_to_hashable, Solver._cube_state_to_hashable,
    call, at_loc, set_faces; cbn [faces].
  unfold bind at 1. rewrite Hcopy.
  unfold bind at 1, get_state, ret at 1.
  rewrite (list_insert_id _ _ a Hcopy).
  unfold bind at 1. rewrite Hcopy.
  pose proof (read_only_heuristic a) as Hro.
  destruct (AStarSolver._heuristic a) as [[start_h | e] a'] eqn:Hh;
    simpl in Hro; subst a'.
  - rewrite (list_insert_id _ _ a Hcopy).
    unfold bind at 1, lift_outcome, dict_setitem, check_hash.
    rewrite state_key_unhashable.
    rewrite <- app_assoc. reflexivity.
  - exfalso. destruct a as [fa fb fc fd fe ff]. discriminate Hh.
Qed.

(** C1: for a cube exactly k moves from solved, k within the depth bound,
    [BFSSolver.solve] should return found = true and k moves.  The cube
    [after_F] is one move from solved (F' solves it), yet with bound 5 the
    call raises [TypeError] for every amount of fuel: the state key holds
    numpy arrays and cannot be put in the set [visited]. *)
Theorem bfs_solve_raises_one_move_from_solved (fuel : nat) :
  is_solved_faces after_F = false
  /\ (exists c, apply_move "F'" after_F = (Ok tt, c)
                /\ is_solved_faces c = true)
  /\ BFSSolver.solve (BFSSolver.init 5) fuel (mkCube 3 0) [after_F]
     = (Raise (TypeError "unhashable type: 'numpy.ndarray'"),
        [after_F; init_faces; after_F]).
Proof.
  split; [ reflexivity | split ].
  - exists init_faces. split; vm_compute; reflexivity.
  - apply (bfs_solve_unsolved (BFSSolver.init 5) fuel (mkCube 3 0)
                              [after_F] after_F); reflexivity.
Qed.

(** C8: on a cube that is already solved, both solvers return found = true,
    no moves and zero explored nodes, for every amount of fuel, and allocate
    nothing. *)
Theorem solved_input_returns_at_once
    (bfs : BFSSolver.t) (astar : AStarSolver.t) (fuel : nat)
    (cube : RubiksCube) (h : list Faces) (a : Faces) :
  h !! faces cube = Some a ->
  is_solved_faces a = true ->
  BFSSolver.solve bfs fuel cube h = (Ok (true, [], 0%Z), h)
  /\ AStarSolver.solve astar fuel cube h = (Ok (true, [], 0%Z), h).
Proof.
  intros Ha Hsolved.
  unfold BFSSolver.solve, AStarSolver.solve, bind.
  rewrite (call_is_solved cube h a Ha), Hsolved.
  split; reflexivity.
Qed.

Lemma solved_input_returns_at_once_witness :
  BFSSolver.solve (BFSSolver.init 5) 0 (mkCube 3 0) [init_faces]
  = (Ok (true, [], 0%Z), [init_faces])
  /\ AStarSolver.solve (AStarSolver.init 8) 0 (mkCube 3 0) [init_faces]
     = (Ok (true, [], 0%Z), [init_faces]).
Proof.
  apply (solved_input_returns_at_once
           (BFSSolver.init 5) (AStarSolver.init 8) 0 (mkCube 3 0)
           [init_faces] init_faces); reflexivity.
Defined.

(** C10: neither solver changes the array of the cube it is given: whatever
    the solver's parameters and the fuel, and whether the call returns or
    raises, the caller's [faces] array holds afterwards what it held
    before. *)
Theorem solvers_do_not_mutate_input
    (bfs : BFSSolver.t) (astar : AStarSolver.t) (fuel : nat)
    (cube : RubiksCube) (h : list Faces) :
  faces cube < length h ->
  snd (BFSSolver.solve bfs fuel cube h) !! faces cube = h !! faces cube
  /\ snd (AStarSolver.solve astar fuel cube h) !! faces cube
     = h !! faces cube.
Proof.
  intros Hvalid. split.
  - destruct (BFSSolver.solve bfs fuel cube h) as [r h'] eqn:Hrun.
    destruct (frames_bfs_solve (length h) fuel bfs cube h h' r
                               (Nat.le_refl _) Hrun) as (_ & Hold & _).
    apply Hold, Hvalid.
  - destruct (AStarSolver.solve astar fuel cube h) as [r h'] eqn:Hrun.
    destruct (frames_astar_solve (length h) fuel astar cube h h' r
                                 (Nat.le_refl _) Hrun) as (_ & Hold & _).
    apply Hold, Hvalid.
Qed.

Lemma solvers_do_not_mutate_input_witness :
  snd (BFSSolver.solve (BFSSolver.init 5) 10 (mkCube 3 0) [after_F])
    !! faces (mkCube 3 0) = [after_F] !! faces (mkCube 3 0)
  /\ snd (AStarSolver.solve (AStarSolver.init 8) 10 (mkCube 3 0) [after_F])
       !! faces (mkCube 3 0) = [after_F] !! faces (mkCube 3 0).
Proof.
  apply (solvers_do_not_mutate_input
           (BFSSolver.init 5) (AStarSolver.init 8) 10 (mkCube 3 0) [after_F]).
  simpl. lia.
Defined.

(** * Further properties of the cube *)

(** ** Moves of opposite faces *)

(** X1: turns of opposite faces commute: F with B, U with D and L with R, in
    either direction each, give the same cube in both orders. *)
Theorem opposite_moves_commute (p q : bool) (c : Faces) :
  (do* move_F p in move_B q) c = (do* move_B q in move_F p) c
  /\ (do* move_U p in move_D q) c = (do* move_D q in move_U p) c
  /\ (do* move_L p in move_R q) c = (do* move_R q in move_L p) c.
Proof.
  destruct_faces c; destruct p, q; repeat split; reflexivity.
Qed.

(** X2: a turn never changes the face opposite to the turned one. *)
Theorem move_keeps_opposite_face (p : bool) (c : Faces) :
  f1 (snd (move_F p c)) = f1 c
  /\ f0 (snd (move_B p c)) = f0 c
  /\ f3 (snd (move_U p c)) = f3 c
  /\ f2 (snd (move_D p c)) = f2 c
  /\ f5 (snd (move_L p c)) = f5 c
  /\ f4 (snd (move_R p c)) = f4 c.
Proof.
  destruct_faces c; destruct p; repeat split; reflexivity.
Qed.

(** ** What [is_solved] accepts *)

Lemma face_uniform_full (f : Face) :
  face_uniform f = true <-> f = full_face (c0 (r0 f)).
Proof.
  destruct_face f. unfold face_uniform, full_face, full_row, cells.
  cbn [forallb c0 c1 c2 r0 r1 r2].
  rewrite !andb_true_iff, !Z.eqb_eq. split.
  - intros (_ & -> & -> & -> & -> & -> & -> & -> & -> & _). reflexivity.
  - intros Heq. injection Heq as -> -> -> -> -> -> -> ->. tauto.
Qed.

(** X3: [is_solved] is true exactly on the cubes whose six faces are each of
    one colour, whatever the six colours are: two faces may share a colour,
    and the colours need not be those of a new cube. *)
Theorem is_solved_iff_uniform_faces (fs : Faces) :
  is_solved fs = (Ok true, fs)
  <-> exists a b c d e f, fs = uniform_cube a b c d e f.
Proof.
  assert (Hs : is_solved fs = (Ok true, fs) <-> is_solved_faces fs = true).
  { unfold is_solved, bind, get_state, ret.
    split; [ intros H; inversion H; reflexivity | intros ->; reflexivity ]. }
  rewrite Hs. unfold is_solved_faces.
  rewrite is_solved_loop_Forall.
  destruct fs as [a b c d e f]. unfold face_list; cbn [f0 f1 f2 f3 f4 f5].
  rewrite !Forall_cons_iff, !face_uniform_full. split.
  - intros (Ha & Hb & Hc & Hd & He & Hf & _).
    exists (c0 (r0 a)), (c0 (r0 b)), (c0 (r0 c)),
           (c0 (r0 d)), (c0 (r0 e)), (c0 (r0 f)).
    unfold uniform_cube. congruence.
  - intros (x1 & x2 & x3 & x4 & x5 & x6 & Heq).
    unfold uniform_cube in Heq. injection Heq as -> -> -> -> -> ->.
    repeat split; constructor.
Qed.

(** ** The range of the heuristic *)

Lemma count_differing_center_le (f : Face) :
  (AStarSolver.count_differing f (c1 (r1 f)) <= 8)%Z.
Proof.
  destruct_face f. unfold AStarSolver.count_differing, cells.
  cbn [fold_right c0 c1 c2 r0 r1 r2]. rewrite Z.eqb_refl.
  repeat match goal with
         | |- context [(?x =? ?y)%Z] => destruct (x =? y)%Z
         end; lia.
Qed.

(** X4: the heuristic returns normally on every cube, does not change it, and
    its value lies between 0 and 48: a centre never differs from itself. *)
Theorem heuristic_range (fs : Faces) :
  exists h, AStarSolver._heuristic fs = (Ok h, fs) /\ (0 <= h <= 48)%Z.
Proof.
  destruct fs as [a b c d e f].
  exists (0 + AStarSolver.count_differing a (c1 (r1 a))
            + AStarSolver.count_differing b (c1 (r1 b))
            + AStarSolver.count_differing c (c1 (r1 c))
            + AStarSolver.count_differing d (c1 (r1 d))
            + AStarSolver.count_differing e (c1 (r1 e))
            + AStarSolver.count_differing f (c1 (r1 f)))%Z.
  split; [ reflexivity | ].
  pose proof (count_differing_nonneg a (c1 (r1 a))).
  pose proof (count_differing_nonneg b (c1 (r1 b))).
  pose proof (count_differing_nonneg c (c1 (r1 c))).
  pose proof (count_differing_nonneg d (c1 (r1 d))).
  pose proof (count_differing_nonneg e (c1 (r1 e))).
  pose proof (count_differing_nonneg f (c1 (r1 f))).
  pose proof (count_differing_center_le a).
  pose proof (count_differing_center_le b).
  pose proof (count_differing_center_le c).
  pose proof (count_differing_center_le d).
  pose proof (count_differing_center_le e).
  pose proof (count_differing_center_le f).
  lia.
Qed.

(** ** The heuristic one move away from solved *)

Lemma distinct6 (a b c d e f : Z) :
  NoDup [a; b; c; d; e; f] ->
  a <> b /\ a <> c /\ a <> d /\ a <> e /\ a <> f /\ b <> c /\ b <> d /\ b <> e
  /\ b <> f /\ c <> d /\ c <> e /\ c <> f /\ d <> e /\ d <> f /\ e <> f.
Proof.
  intros Hnd.
  repeat match goal with
         | H : NoDup (_ :: _) |- _ => inversion H; clear H; subst
         end.
  cbn [In] in *.
  repeat split; intros Heq; subst;
    match goal with
    | H : ~ _ |- _ =>
        apply H; solve [ repeat first [ left; reflexivity | right ] ]
    end.
Qed.

(** On a solved cube with six different colours, every move leaves twelve
    stickers that differ from the centre of their face. *)
Lemma heuristic_after_one_move (a b c d e f : Z) (m : string) :
  NoDup [a; b; c; d; e; f] ->
  In m standard_moves ->
  AStarSolver._heuristic (snd (apply_move m (uniform_cube a b c d e f)))
  = (Ok 12%Z, snd (apply_move m (uniform_cube a b c d e f))).
Proof.
  intros Hnd Hm.
  apply distinct6 in Hnd.
  destruct Hnd as (? & ? & ? & ? & ? & ? & ? & ? & ? & ? & ? & ? & ? & ? & ?).
  each_move Hm.
  all: match goal with
       | |- context [snd (apply_move ?m ?c)] =>
           let c1 := eval vm_compute in (snd (apply_move m c)) in
           change (snd (apply_move m c)) with c1
       end.
  all: cbv [AStarSolver._heuristic AStarSolver._heuristic_loop seq bind getitem
            faces_get ret AStarSolver.count_differing cells fold_right
            c0 c1 c2 r0 r1 r2 f0 f1 f2 f3 f4 f5].
  all: repeat match goal with
              | |- context [(?x =? ?y)%Z] =>
                  first [ rewrite (Z.eqb_refl x)
                        | rewrite (proj2 (Z.eqb_neq x y)) by congruence ]
              end.
  all: reflexivity.
Qed.

(** X5: the heuristic is not a lower bound of the distance to a solved state.
    On a solved cube with six different colours, each of the twelve moves
    leads to a cube whose heuristic is 12, although one move, the inverse,
    solves that cube. *)
Theorem heuristic_overestimates (a b c d e f : Z) (m : string) :
  NoDup [a; b; c; d; e; f] ->
  In m standard_moves ->
  exists c1,
    apply_move m (uniform_cube a b c d e f) = (Ok tt, c1)
    /\ AStarSolver._heuristic c1 = (Ok 12%Z, c1)
    /\ apply_move (inverse_move m) c1 = (Ok tt, uniform_cube a b c d e f).
Proof.
  intros Hnd Hm.
  exists (snd (apply_move m (uniform_cube a b c d e f))).
  split; [ exact (apply_move_standard_ok _ m Hm) | ].
  split; [ exact (heuristic_after_one_move a b c d e f m Hnd Hm) | ].
  each_move Hm; vm_compute; reflexivity.
Qed.

Lemma heuristic_overestimates_witness :
  exists c1,
    apply_move "F" (uniform_cube 0 1 2 3 4 5) = (Ok tt, c1)
    /\ AStarSolver._heuristic c1 = (Ok 12%Z, c1)
    /\ apply_move (inverse_move "F") c1 = (Ok tt, uniform_cube 0 1 2 3 4 5).
Proof.
  apply (heuristic_overestimates 0 1 2 3 4 5 "F").
  - apply (bool_decide_unpack _). vm_compute. exact I.
  - unfold standard_moves; simpl; tauto.
Defined.

(** * Further properties of tokens and algorithms *)

(** ** White space *)

Lemma list_ascii_of_string_app (a b : string) :
  list_ascii_of_string (a ++ b)
  = list_ascii_of_string a ++ list_ascii_of_string b.
Proof.
  induction a as [ | ch a IH ]; simpl; [ reflexivity | ].
  rewrite IH. reflexivity.
Qed.

Lemma lstrip_blank_prefix (ws x : list ascii) :
  forallb py_isspace ws = true ->
  lstrip_chars (ws ++ x) = lstrip_chars x.
Proof.
  induction ws as [ | ch ws IH ]; simpl; intros Hws; [ reflexivity | ].
  apply andb_true_iff in Hws as [Hch Hws]. rewrite Hch. apply IH, Hws.
Qed.

Lemma lstrip_blank (ws : list ascii) :
  forallb py_isspace ws = true -> lstrip_chars ws = [].
Proof.
  intros Hws. rewrite <- (app_nil_r ws).
  rewrite (lstrip_blank_prefix ws [] Hws). reflexivity.
Qed.

Lemma lstrip_nil_blank (t : list ascii) :
  lstrip_chars t = [] -> forallb py_isspace t = true.
Proof.
  induction t as [ | ch t IH ]; simpl; [ reflexivity | ].
  destruct (py_isspace ch); simpl; [ exact IH | discriminate ].
Qed.

Lemma lstrip_app_nonblank (t x : list ascii) :
  lstrip_chars t <> [] -> lstrip_chars (t ++ x) = lstrip_chars t ++ x.
Proof.
  induction t as [ | ch t IH ]; simpl; [ congruence | ].
  destruct (py_isspace ch); [ exact IH | reflexivity ].
Qed.

Lemma forallb_isspace_rev (ws : list ascii) :
  forallb py_isspace ws = true -> forallb py_isspace (rev ws) = true.
Proof.
  rewrite !forallb_forall. intros Hws ch Hin.
  apply Hws. apply in_rev. exact Hin.
Qed.

Lemma strip_chars_surround (ws1 t ws2 : list ascii) :
  forallb py_isspace ws1 = true ->
  forallb py_isspace ws2 = true ->
  strip_chars (ws1 ++ t ++ ws2) = strip_chars t.
Proof.
  intros H1 H2. unfold strip_chars.
  rewrite (lstrip_blank_prefix ws1 _ H1).
  destruct (lstrip_chars t) as [ | ch y ] eqn:Ht.
  - rewrite (lstrip_blank (t ++ ws2)); [ reflexivity | ].
    rewrite forallb_app, (lstrip_nil_blank t Ht), H2. reflexivity.
  - rewrite lstrip_app_nonblank by (rewrite Ht; discriminate).
    rewrite Ht, rev_app_distr.
    rewrite (lstrip_blank_prefix (rev ws2) _ (forallb_isspace_rev ws2 H2)).
    reflexivity.
Qed.

Lemma strip_surround (ws1 tok ws2 : string) :
  is_blank ws1 = true -> is_blank ws2 = true ->
  strip (ws1 ++ tok ++ ws2) = strip tok.
Proof.
  intros H1 H2. unfold strip.
  rewrite !list_ascii_of_string_app.
  change (string_of_list_ascii
            (strip_chars (list_ascii_of_string ws1
                          ++ list_ascii_of_string tok
                          ++ list_ascii_of_string ws2))
          = string_of_list_ascii (strip_chars (list_ascii_of_string tok))).
  rewrite (strip_chars_surround _ _ _ H1 H2). reflexivity.
Qed.

(** X6: white space before and after a token is ignored by [apply_move]. *)
Theorem apply_move_ignores_surrounding_space
    (ws1 tok ws2 : string) (c : Faces) :
  is_blank ws1 = true ->
  is_blank ws2 = true ->
  apply_move (ws1 ++ tok ++ ws2) c = apply_move tok c.
Proof.
  intros H1 H2. unfold apply_move.
  rewrite (strip_surround ws1 tok ws2 H1 H2). reflexivity.
Qed.

Lemma apply_move_ignores_surrounding_space_witness :
  apply_move ("  " ++ "R'" ++ " ") init_faces = apply_move "R'" init_faces.
Proof.
  apply (apply_move_ignores_surrounding_space "  " "R'" " " init_faces);
    reflexivity.
Defined.

(** ** Which tokens [apply_move] accepts *)

Lemma outcome_ok_eta {A} (x : outcome unit * A) :
  fst x = Ok tt -> x = (Ok tt, snd x).
Proof. destruct x as [r s]; simpl; intros ->; reflexivity. Qed.

Lemma apply_move_accepts (tok : string) (c : Faces) :
  In (dispatched tok) face_letters ->
  apply_move tok c = (Ok tt, snd (apply_move tok c)).
Proof.
  unfold apply_move, dispatched, face_letters.
  destruct ((1 <? String.length (strip tok))%nat
            && char_at_is (strip tok) 1 "'"%char).
  all: cbn [In]; intros Hin.
  all: repeat (destruct Hin as [<- | Hin]); [ .. | contradiction ].
  all: cbn [String.eqb Ascii.eqb Bool.eqb andb].
  all: apply outcome_ok_eta.
  all: lazymatch goal with
       | |- fst (move_F ?p ?s) = _ => exact (move_F_ok s p)
       | |- fst (move_B ?p ?s) = _ => exact (move_B_ok s p)
       | |- fst (move_U ?p ?s) = _ => exact (move_U_ok s p)
       | |- fst (move_D ?p ?s) = _ => exact (move_D_ok s p)
       | |- fst (move_L ?p ?s) = _ => exact (move_L_ok s p)
       | |- fst (move_R ?p ?s) = _ => exact (move_R_ok s p)
       end.
Qed.

(** X7: [apply_move] returns normally exactly when the stripped token, cut to
    its first character if its second one is an apostrophe, is one of the six
    face letters.  Otherwise it raises [ValueError] with that string in the
    message and leaves the cube untouched. *)
Theorem apply_move_accepts_iff (tok : string) (c : Faces) :
  ((exists c', apply_move tok c = (Ok tt, c'))
   <-> In (dispatched tok) face_letters)
  /\ (~ In (dispatched tok) face_letters ->
      apply_move tok c
      = (Raise (ValueError ("Invalid move: " ++ dispatched tok)), c)).
Proof.
  split; [ split | ].
  - intros [c' Hok].
    destruct (In_dec string_dec (dispatched tok) face_letters) as [Hin | Hnot];
      [ exact Hin | ].
    rewrite (apply_move_rejects tok c Hnot) in Hok. discriminate Hok.
  - intros Hin. exists (snd (apply_move tok c)).
    apply apply_move_accepts, Hin.
  - apply apply_move_rejects.
Qed.

Lemma apply_move_accepts_iff_witness :
  apply_move "x" init_faces = (Raise (ValueError "Invalid move: x"), init_faces).
Proof.
  apply (proj2 (apply_move_accepts_iff "x" init_faces)).
  vm_compute. intros H.
  repeat (destruct H as [H | H]; [ discriminate H | ]). exact H.
Defined.

(** ** Splitting and composing algorithms *)

Lemma split_go_space (xs ys : list ascii) (sp : ascii) :
  py_isspace sp = true ->
  forall word, split_go (xs ++ sp :: ys) word
               = split_go xs word ++ split_go ys [].
Proof.
  intros Hsp. induction xs as [ | ch xs IH ]; intros word; simpl.
  - rewrite Hsp. destruct word; reflexivity.
  - destruct (py_isspace ch); [ | apply IH ].
    destruct word; rewrite IH; reflexivity.
Qed.

Lemma split_go_blank_prefix (ws ys : list ascii) :
  forallb py_isspace ws = true ->
  split_go (ws ++ ys) [] = split_go ys [].
Proof.
  induction ws as [ | ch ws IH ]; simpl; intros Hws; [ reflexivity | ].
  apply andb_true_iff in Hws as [Hch Hws]. rewrite Hch. apply IH, Hws.
Qed.

Lemma split_blank (s : string) : is_blank s = true -> split s = [].
Proof.
  unfold is_blank, split. intros Hs.
  rewrite <- (app_nil_r (list_ascii_of_string s)).
  rewrite (split_go_blank_prefix _ [] Hs). reflexivity.
Qed.

Lemma split_app (a sep b : string) :
  sep <> EmptyString -> is_blank sep = true ->
  split (a ++ sep ++ b) = split a ++ split b.
Proof.
  intros Hne Hsep. unfold split. rewrite !list_ascii_of_string_app.
  destruct sep as [ | sp sep ]; [ congruence | ].
  unfold is_blank in Hsep. cbn [list_ascii_of_string forallb] in Hsep.
  apply andb_true_iff in Hsep as [Hsp Hsep].
  cbn [list_ascii_of_string]. rewrite <- app_comm_cons.
  rewrite (split_go_space _ _ sp Hsp).
  rewrite (split_go_blank_prefix _ _ Hsep). reflexivity.
Qed.

Lemma forM_app {S A} (f : A -> M S unit) (l1 l2 : list A) (s : S) :
  forM_ (l1 ++ l2) f s = (do* forM_ l1 f in forM_ l2 f) s.
Proof.
  revert s. induction l1 as [ | x l1 IH ]; intros s; cbn [app forM_].
  - reflexivity.
  - unfold bind. destruct (f x s) as [[ [] | e] s1]; [ | reflexivity ].
    rewrite IH. unfold bind. reflexivity.
Qed.

(** X8: an empty or all-blank algorithm does nothing and returns normally. *)
Theorem apply_algorithm_blank (algorithm : string) (c : Faces) :
  is_blank algorithm = true ->
  apply_algorithm algorithm c = (Ok tt, c).
Proof.
  intros Hblank. unfold apply_algorithm.
  rewrite (split_blank algorithm Hblank). reflexivity.
Qed.

Lemma apply_algorithm_blank_witness :
  apply_algorithm "" after_F = (Ok tt, after_F).
Proof.
  apply (apply_algorithm_blank "" after_F). reflexivity.
Defined.

(** X9: applying two algorithms joined by white space is applying the first
    and then, if it returned normally, the second. *)
Theorem apply_algorithm_concat (a sep b : string) (c : Faces) :
  sep <> EmptyString ->
  is_blank sep = true ->
  apply_algorithm (a ++ sep ++ b) c
  = (do* apply_algorithm a in apply_algorithm b) c.
Proof.
  intros Hne Hsep. unfold apply_algorithm.
  rewrite (split_app a sep b Hne Hsep). apply forM_app.
Qed.

Lemma apply_algorithm_concat_witness :
  apply_algorithm ("R U" ++ " " ++ "R' U'") init_faces
  = (do* apply_algorithm "R U" in apply_algorithm "R' U'") init_faces.
Proof.
  apply (apply_algorithm_concat "R U" " " "R' U'" init_faces).
  - discriminate.
  - reflexivity.
Defined.

(** ** Undoing an algorithm *)

Lemma apply_move_inverse (c : Faces) (m : string) :
  In m standard_moves ->
  apply_move (inverse_move m) (snd (apply_move m c)) = (Ok tt, c).
Proof.
  intros Hm. destruct_faces c; each_move Hm; vm_compute; reflexivity.
Qed.

Lemma moves_from_app (a b c : Faces) (l1 l2 : list string) :
  moves_from a l1 b -> moves_from b l2 c -> moves_from a (l1 ++ l2) c.
Proof.
  induction 1 as [ a | a a1 b tok toks Hstep _ IH ]; intros H2; simpl.
  - exact H2.
  - apply (moves_cons a a1 c tok); [ exact Hstep | apply IH, H2 ].
Qed.

Lemma moves_from_undo (ms : list string) :
  Forall (fun m => In m standard_moves) ms ->
  forall c, exists c',
    moves_from c ms c' /\ moves_from c' (map inverse_move (rev ms)) c.
Proof.
  induction 1 as [ | m ms Hm _ IH ]; intros c.
  - exists c. split; apply moves_nil.
  - destruct (IH (snd (apply_move m c))) as (c' & Hfwd & Hback).
    exists c'. split.
    + apply (moves_cons c (snd (apply_move m c)) c' m);
        [ apply apply_move_standard_ok, Hm | exact Hfwd ].
    + cbn [rev]. rewrite map_app.
      apply (moves_from_app c' (snd (apply_move m c)) c); [ exact Hback | ].
      cbn [map]. apply (moves_cons _ c c); [ | apply moves_nil ].
      apply apply_move_inverse, Hm.
Qed.

(** X10: an algorithm of standard moves is undone by the algorithm that
    lists the inverse moves in reverse order: applying one and then the other
    returns normally and gives the cube back. *)
Theorem apply_algorithm_undo (a b : string) (c : Faces) :
  Forall (fun m => In m standard_moves) (split a) ->
  split b = map inverse_move (rev (split a)) ->
  (do* apply_algorithm a in apply_algorithm b) c = (Ok tt, c).
Proof.
  intros Hstd Hb.
  destruct (moves_from_undo (split a) Hstd c) as (c' & Hfwd & Hback).
  unfold bind. rewrite (apply_algorithm_all_valid a c c' Hfwd).
  apply apply_algorithm_all_valid. rewrite Hb. exact Hback.
Qed.

Lemma apply_algorithm_undo_witness :
  (do* apply_algorithm "R U R' U'" in apply_algorithm "U R U' R'") after_F
  = (Ok tt, after_F).
Proof.
  apply (apply_algorithm_undo "R U R' U'" "U R U' R'" after_F).
  - vm_compute. repeat (constructor; [ tauto | ]). constructor.
  - vm_compute. reflexivity.
Defined.

(** ** What no algorithm can change *)

(** A token either acts as one of the twelve standard moves or is rejected
    with the cube untouched. *)
Lemma apply_move_cases (tok : string) (c : Faces) :
  (exists m, In m standard_moves /\ apply_move tok c = apply_move m c)
  \/ (exists e, apply_move tok c = (Raise e, c)).
Proof.
  destruct (In_dec string_dec (dispatched tok) face_letters) as [Hin | Hnot];
    [ left | right; eexists; apply (apply_move_rejects tok c Hnot) ].
  revert Hin. unfold apply_move, dispatched, face_letters.
  destruct ((1 <? String.length (strip tok))%nat
            && char_at_is (strip tok) 1 "'"%char).
  all: cbn [In]; intros Hin.
  all: repeat (destruct Hin as [<- | Hin]); [ .. | contradiction ].
  all: cbn [String.eqb Ascii.eqb Bool.eqb andb].
  all: lazymatch goal with
       | |- exists m, _ /\ move_F true _ = _ => exists "F'"
       | |- exists m, _ /\ move_B true _ = _ => exists "B'"
       | |- exists m, _ /\ move_U true _ = _ => exists "U'"
       | |- exists m, _ /\ move_D true _ = _ => exists "D'"
       | |- exists m, _ /\ move_L true _ = _ => exists "L'"
       | |- exists m, _ /\ move_R true _ = _ => exists "R'"
       | |- exists m, _ /\ move_F false _ = _ => exists "F"
       | |- exists m, _ /\ move_B false _ = _ => exists "B"
       | |- exists m, _ /\ move_U false _ = _ => exists "U"
       | |- exists m, _ /\ move_D false _ = _ => exists "D"
       | |- exists m, _ /\ move_L false _ = _ => exists "L"
       | |- exists m, _ /\ move_R false _ = _ => exists "R"
       end.
  all: split; [ unfold standard_moves; simpl; tauto | reflexivity ].
Qed.

(** A relation that holds across every standard move holds across every run
    of [apply_move] over a list of tokens, complete or cut short. *)
Lemma forM_apply_move_invariant (R : Faces -> Faces -> Prop) :
  (forall c, R c c) ->
  (forall a b c, R a b -> R b c -> R a c) ->
  (forall c m, In m standard_moves -> R c (snd (apply_move m c))) ->
  forall toks c, R c (snd (forM_ toks (fun move => apply_move move) c)).
Proof.
  intros Hrefl Htrans Hstep.
  induction toks as [ | tok toks IH ]; intros c; cbn [forM_].
  - apply Hrefl.
  - unfold bind.
    destruct (apply_move_cases tok c) as [(m & Hm & Heq) | (e & Heq)];
      rewrite Heq.
    + rewrite (apply_move_standard_ok c m Hm).
      apply (Htrans _ (snd (apply_move m c))); [ apply Hstep, Hm | apply IH ].
    + apply Hrefl.
Qed.

Lemma apply_move_centers (c : Faces) (m : string) :
  In m standard_moves ->
  map center (face_list (snd (apply_move m c))) = map center (face_list c).
Proof.
  intros Hm. destruct_faces c; each_move Hm; vm_compute; reflexivity.
Qed.

(** X11: whatever string [apply_algorithm] is given, and whether it returns
    or raises part-way, the cube it leaves has the same multiset of stickers
    and the same six centres as the cube it started from. *)
Theorem apply_algorithm_conserves (algorithm : string) (c : Faces) :
  Permutation (stickers c) (stickers (snd (apply_algorithm algorithm c)))
  /\ map center (face_list (snd (apply_algorithm algorithm c)))
     = map center (face_list c).
Proof.
  unfold apply_algorithm. split.
  - apply (forM_apply_move_invariant
             (fun a b => Permutation (stickers a) (stickers b))).
    + intros a. apply Permutation_refl.
    + intros a b d. apply Permutation_trans.
    + intros a m Hm. apply apply_move_permutes, Hm.
  - apply (forM_apply_move_invariant
             (fun a b => map center (face_list b) = map center (face_list a))).
    + reflexivity.
    + intros a b d Hab Hbd. rewrite Hbd. exact Hab.
    + intros a m Hm. apply apply_move_centers, Hm.
Qed.

Lemma reachable_stickers_colors (c : Faces) :
  reachable c -> Forall (fun x => In x colors) (stickers c).
Proof.
  induction 1 as [ | c c' m _ IH Hm Hstep ].
  - vm_compute. repeat (constructor; [ tauto | ]). constructor.
  - eapply Permutation_Forall; [ | exact IH ].
    replace c' with (snd (apply_move m c)) by (rewrite Hstep; reflexivity).
    apply apply_move_permutes, Hm.
Qed.

(** X12: from a state reachable from the solved cube, [apply_algorithm] with
    any string leaves a reachable state, and every sticker of a reachable
    state is one of the six colours 0..5. *)
Theorem apply_algorithm_reachable (algorithm : string) (c : Faces) :
  reachable c ->
  reachable (snd (apply_algorithm algorithm c))
  /\ Forall (fun x => In x colors)
            (stickers (snd (apply_algorithm algorithm c))).
Proof.
  intros Hc.
  assert (Hr : reachable (snd (apply_algorithm algorithm c))).
  { unfold apply_algorithm. revert Hc.
    apply (forM_apply_move_invariant (fun a b => reachable a -> reachable b)).
    - intros a Ha. exact Ha.
    - intros a b d Hab Hbd Ha. apply Hbd, Hab, Ha.
    - intros a m Hm Ha.
      apply (reachable_move a _ m Ha Hm), apply_move_standard_ok, Hm. }
  split; [ exact Hr | apply reachable_stickers_colors, Hr ].
Qed.

Lemma apply_algorithm_reachable_witness :
  reachable (snd (apply_algorithm "F R x U" init_faces))
  /\ Forall (fun x => In x colors)
            (stickers (snd (apply_algorithm "F R x U" init_faces))).
Proof.
  apply (apply_algorithm_reachable "F R x U" init_faces).
  apply reachable_init.
Defined.

(** * Further properties of the solvers *)

(** ** Path reconstruction *)

Lemma reconstruct_path_loop_chain (came_from : dict (pyval * string))
    (k : pyval) (ms : list string) :
  path_to came_from k ms ->
  forall (fuel : nat) (path : list string),
    length ms < fuel ->
    Solver._reconstruct_path_loop fuel k came_from path = Ok (ms ++ rev path).
Proof.
  induction 1 as [ k Hk Hnone | k parent move ms Hk Hsome _ IH ];
    intros fuel path Hfuel.
  - destruct fuel as [ | fuel ]; [ simpl in Hfuel; lia | ].
    cbn [Solver._reconstruct_path_loop].
    unfold dict_contains, check_hash. rewrite Hk, Hnone. reflexivity.
  - rewrite length_app in Hfuel. cbn [length] in Hfuel.
    destruct fuel as [ | fuel ]; [ lia | ].
    cbn [Solver._reconstruct_path_loop].
    unfold dict_contains, dict_getitem, check_hash. rewrite Hk, Hsome.
    rewrite IH by lia.
    rewrite rev_app_distr. cbn [rev app]. rewrite <- app_assoc. reflexivity.
Qed.

(** X13: when the parent links lead from a key back to a key without parent,
    and the keys on the way are hashable, [_reconstruct_path] returns the
    moves of the links in the order from that last key to the given one;
    enough fuel is one more than the number of links. *)
Theorem reconstruct_path_chain (came_from : dict (pyval * string))
    (k : pyval) (ms : list string) (fuel : nat) :
  path_to came_from k ms ->
  length ms < fuel ->
  BFSSolver._reconstruct_path fuel k came_from = Ok ms
  /\ AStarSolver._reconstruct_path fuel k came_from = Ok ms.
Proof.
  intros Hpath Hfuel.
  unfold BFSSolver._reconstruct_path, AStarSolver._reconstruct_path,
    Solver._reconstruct_path.
  rewrite (reconstruct_path_loop_chain came_from k ms Hpath fuel [] Hfuel).
  rewrite app_nil_r. split; reflexivity.
Qed.

Lemma reconstruct_path_chain_witness :
  BFSSolver._reconstruct_path
    3 (PInt 2) [(PInt 1, (PInt 0, "F")); (PInt 2, (PInt 1, "U"))]
  = Ok ["F"; "U"]
  /\ AStarSolver._reconstruct_path
       3 (PInt 2) [(PInt 1, (PInt 0, "F")); (PInt 2, (PInt 1, "U"))]
     = Ok ["F"; "U"].
Proof.
  apply (reconstruct_path_chain
           [(PInt 1, (PInt 0, "F")); (PInt 2, (PInt 1, "U"))]
           (PInt 2) ["F"; "U"] 3).
  - apply (path_step _ (PInt 2) (PInt 1) "U" ["F"]);
      [ reflexivity | reflexivity | ].
    apply (path_step _ (PInt 1) (PInt 0) "F" []);
      [ reflexivity | reflexivity | ].
    apply path_root; reflexivity.
  - simpl. lia.
Defined.

(** ** The solvers on a cube that is not solved *)

(** X14: on every cube that is not solved, whatever the depth bound and the
    fuel, both solvers raise [TypeError] before they explore any state: the
    state key is not hashable.  By then each has allocated a new solved cube
    and a copy of the input, and changed nothing else. *)
Theorem solvers_raise_on_unsolved
    (bfs : BFSSolver.t) (astar : AStarSolver.t) (fuel : nat)
    (cube : RubiksCube) (h : list Faces) (a : Faces) :
  h !! faces cube = Some a ->
  is_solved_faces a = false ->
  BFSSolver.solve bfs fuel cube h
  = (Raise (TypeError "unhashable type: 'numpy.ndarray'"),
     h ++ [init_faces] ++ [a])
  /\ AStarSolver.solve astar fuel cube h
     = (Raise (TypeError "unhashable type: 'numpy.ndarray'"),
        h ++ [init_faces] ++ [a]).
Proof.
  intros Ha Hunsolved. split.
  - exact (bfs_solve_unsolved bfs fuel cube h a Ha Hunsolved).
  - exact (astar_solve_unsolved astar fuel cube h a Ha Hunsolved).
Qed.

Lemma solvers_raise_on_unsolved_witness :
  BFSSolver.solve (BFSSolver.init 5) 100 (mkCube 3 0) [after_RU]
  = (Raise (TypeError "unhashable type: 'numpy.ndarray'"),
     [after_RU] ++ [init_faces] ++ [after_RU])
  /\ AStarSolver.solve (AStarSolver.init 8) 100 (mkCube 3 0) [after_RU]
     = (Raise (TypeError "unhashable type: 'numpy.ndarray'"),
        [after_RU] ++ [init_faces] ++ [after_RU]).
Proof.
  apply (solvers_raise_on_unsolved
           (BFSSolver.init 5) (AStarSolver.init 8) 100 (mkCube 3 0)
           [after_RU] after_RU); reflexivity.
Defined.

(** ** The state key *)

(** X15: taking the state key of a cube does not change the store; the key is
    never hashable; and [np.array(key).reshape((6, 3, 3))] allocates a new
    array with the contents of the cube's own. *)
Theorem state_key_round_trip (cube : RubiksCube) (h : list Faces) (a : Faces) :
  h !! faces cube = Some a ->
  exists key,
    BFSSolver._cube_state_to_hashable cube h = (Ok key, h)
    /\ AStarSolver._cube_state_to_hashable cube h = (Ok key, h)
    /\ hashable key = false
    /\ np_array_reshape key h = (Ok (length h), h ++ [a]).
Proof.
  intros Ha.
  exists (PTuple (map tuple_of_face (face_list a))).
  unfold BFSSolver._cube_state_to_hashable, AStarSolver._cube_state_to_hashable,
    Solver._cube_state_to_hashable, call, at_loc.
  rewrite Ha. unfold bind, get_state, ret.
  rewrite (list_insert_id h (faces cube) a Ha).
  repeat split; try reflexivity.
  destruct a as [[? ? ?] [? ? ?] [? ? ?] [? ? ?] [? ? ?] [? ? ?]].
  reflexivity.
Qed.

Lemma state_key_round_trip_witness :
  exists key,
    BFSSolver._cube_state_to_hashable (mkCube 3 0) [after_F] = (Ok key, [after_F])
    /\ AStarSolver._cube_state_to_hashable (mkCube 3 0) [after_F]
       = (Ok key, [after_F])
    /\ hashable key = false
    /\ np_array_reshape key [after_F] = (Ok (length [after_F]), [after_F] ++ [after_F]).
Proof.
  apply (state_key_round_trip (mkCube 3 0) [after_F] after_F). reflexivity.
Defined.

(** ** Construction and reset *)

(** X16: [RubiksCube(size)] raises [ValueError] for every size other than 3
    and then allocates nothing; for size 3 it returns a cube on a new array,
    on which [is_solved] is true, and leaves the arrays already there as
    they are. *)
Theorem RubiksCube_new_spec (size : Z) (h : list Faces) :
  (size <> 3%Z ->
   RubiksCube_new size h
   = (Raise (ValueError "Currently only 3x3 cube is supported"), h))
  /\ (size = 3%Z ->
      RubiksCube_new size h = (Ok (mkCube 3 (length h)), h ++ [init_faces])
      /\ call (mkCube 3 (length h)) is_solved (h ++ [init_faces])
         = (Ok true, h ++ [init_faces])).
Proof.
  split.
  - intros Hne. unfold RubiksCube_new.
    destruct (Z.eqb_spec size 3) as [Heq | _]; [ contradiction | reflexivity ].
  - intros ->. split; [ reflexivity | ].
    apply (call_is_solved (mkCube 3 (length h)) (h ++ [init_faces]) init_faces).
    cbn [faces]. rewrite lookup_app_r by lia.
    rewrite Nat.sub_diag. reflexivity.
Qed.

Lemma RubiksCube_new_spec_witness :
  RubiksCube_new 4 [after_F]
  = (Raise (ValueError "Currently only 3x3 cube is supported"), [after_F]).
Proof.
  apply (proj1 (RubiksCube_new_spec 4 [after_F])). discriminate.
Defined.

(** X17: [reset] writes the solved colouring into the cube's own array, in
    place: afterwards [is_solved] is true for the cube (and for any object
    sharing the array), and every other array of the store is as before. *)
Theorem reset_spec (cube : RubiksCube) (h : list Faces) (a : Faces) :
  h !! faces cube = Some a ->
  exists h',
    call cube reset h = (Ok tt, h')
    /\ h' !! faces cube = Some init_faces
    /\ (forall l, l <> faces cube -> h' !! l = h !! l)
    /\ call cube is_solved h' = (Ok true, h').
Proof.
  intros Ha. exists (<[faces cube := init_faces]> h).
  assert (Hl : faces cube < length h) by (apply lookup_lt_Some in Ha; exact Ha).
  assert (Hnew : <[faces cube := init_faces]> h !! faces cube = Some init_faces)
    by (apply list_lookup_insert_eq; exact Hl).
  split; [ | split; [ exact Hnew | split ] ].
  - unfold call, at_loc. rewrite Ha. reflexivity.
  - intros l Hne. apply list_lookup_insert_ne. congruence.
  - apply (call_is_solved cube _ init_faces Hnew).
Qed.

Lemma reset_spec_witness :
  exists h',
    call (mkCube 3 1) reset [after_F; after_RU] = (Ok tt, h')
    /\ h' !! faces (mkCube 3 1) = Some init_faces
    /\ (forall l, l <> faces (mkCube 3 1) -> h' !! l = [after_F; after_RU] !! l)
    /\ call (mkCube 3 1) is_solved h' = (Ok true, h').
Proof.
  apply (reset_spec (mkCube 3 1) [after_F; after_RU] after_RU). reflexivity.
Defined.

(** * Printing a cube *)

(** Either every element passes and the comprehension returns, or some
    element fails and the comprehension raises. *)
Lemma omapM_cases {A B} (f : A -> outcome B) (P : A -> Prop) (e : exn)
    (l : list A) :
  (forall x, In x l ->
     (P x /\ exists y, f x = Ok y) \/ (~ P x /\ f x = Raise e)) ->
  (Forall P l /\ exists ys, omapM f l = Ok ys /\ length ys = length l)
  \/ (~ Forall P l /\ omapM f l = Raise e).
Proof.
  induction l as [ | x l IH ]; intros Hall.
  - left. split; [ constructor | exists []; split; reflexivity ].
  - cbn [omapM].
    destruct (Hall x (or_introl eq_refl)) as [[Hx [y Hy]] | [Hx Hy]];
      rewrite Hy.
    + destruct IH as [[Hl (ys & Hys & Hlen)] | [Hl Hys]].
      * intros z Hz. apply Hall. right. exact Hz.
      * left. rewrite Hys. split; [ constructor; assumption | ].
        exists (y :: ys). split; [ reflexivity | simpl; congruence ].
      * right. rewrite Hys. split; [ | reflexivity ].
        intros HF. apply Hl. inversion HF; assumption.
    + right. split; [ | reflexivity ].
      intros HF. apply Hx. inversion HF; assumption.
Qed.

Lemma color_name_cases (x : Z) :
  (printable x /\ exists s, py_list_getitem color_names x = Ok s)
  \/ (~ printable x /\ py_list_getitem color_names x = Raise list_index_error).
Proof.
  unfold printable.
  destruct (Z_lt_ge_dec x (-6)) as [Hlow | Hlow];
    [ | destruct (Z_le_gt_dec x 5) as [Hhigh | Hhigh] ].
  - right. split; [ lia | ].
    unfold py_list_getitem. cbn [length color_names].
    destruct (Z.ltb_spec x 0); [ | lia ].
    destruct (Z.ltb_spec (x + Z.of_nat 6) 0); [ reflexivity | lia ].
  - left. split; [ lia | ].
    assert (Hx : x = (-6)%Z \/ x = (-5)%Z \/ x = (-4)%Z \/ x = (-3)%Z
                 \/ x = (-2)%Z \/ x = (-1)%Z \/ x = 0%Z \/ x = 1%Z
                 \/ x = 2%Z \/ x = 3%Z \/ x = 4%Z \/ x = 5%Z) by lia.
    repeat (destruct Hx as [-> | Hx]); try subst x; eexists; reflexivity.
  - right. split; [ lia | ].
    unfold py_list_getitem. cbn [length color_names].
    destruct (Z.ltb_spec x 0); [ lia | ].
    destruct (Z.ltb_spec x 0); [ lia | ].
    destruct (nth_error color_names (Z.to_nat x)) eqn:Hnth; [ | reflexivity ].
    exfalso.
    assert (Hlen : (Z.to_nat x < length color_names)%nat).
    { apply (proj1 (List.nth_error_Some color_names (Z.to_nat x))).
      rewrite Hnth. discriminate. }
    cbn [length color_names] in Hlen. lia.
Qed.

Lemma str_row_cases (row : Row) :
  (Forall printable [c0 row; c1 row; c2 row] /\ exists s, str_row row = Ok s)
  \/ (~ Forall printable [c0 row; c1 row; c2 row]
      /\ str_row row = Raise list_index_error).
Proof.
  unfold str_row.
  destruct (omapM_cases (py_list_getitem color_names) printable
                        list_index_error [c0 row; c1 row; c2 row])
    as [[Hall (ys & Hys & _)] | [Hnot Hys]].
  - intros x _. apply color_name_cases.
  - left. rewrite Hys. split; [ exact Hall | eexists; reflexivity ].
  - right. rewrite Hys. split; [ exact Hnot | reflexivity ].
Qed.

Lemma printable_cells (face : Face) :
  Forall (fun row => Forall printable [c0 row; c1 row; c2 row])
         [r0 face; r1 face; r2 face]
  <-> Forall printable (cells face).
Proof.
  unfold cells. rewrite !Forall_cons_iff. intuition.
Qed.

Lemma str_loop_cases (faces : list Face) :
  forall (i : Z) (result : list string),
    (0 <= i)%Z -> (i + Z.of_nat (length faces) <= 6)%Z ->
    (Forall (fun face => Forall printable (cells face)) faces
     /\ exists lines, str_loop i faces result = Ok lines)
    \/ (~ Forall (fun face => Forall printable (cells face)) faces
        /\ str_loop i faces result = Raise list_index_error).
Proof.
  induction faces as [ | face faces IH ]; intros i result Hi Hlen.
  - left. split; [ constructor | eexists; reflexivity ].
  - cbn [str_loop length] in *.
    assert (Hname : exists name, py_list_getitem face_names i = Ok name).
    { assert (Hx : i = 0%Z \/ i = 1%Z \/ i = 2%Z \/ i = 3%Z \/ i = 4%Z
                   \/ i = 5%Z) by lia.
      repeat (destruct Hx as [-> | Hx]); try subst i; eexists; reflexivity. }
    destruct Hname as [name ->].
    destruct (omapM_cases str_row
                (fun row => Forall printable [c0 row; c1 row; c2 row])
                list_index_error [r0 face; r1 face; r2 face])
      as [[Hrows (rows & Hrs & _)] | [Hrows Hrs]].
    + intros row _. apply str_row_cases.
    + rewrite Hrs. apply printable_cells in Hrows.
      destruct (IH (i + 1)%Z
                   ((result ++ [(name ++ ":")%string]) ++ rows ++ [EmptyString]))
        as [[Hrest (lines & Hlines)] | [Hrest Hlines]]; [ lia | lia | | ].
      * left. split; [ constructor; assumption | ].
        exists lines. rewrite <- Hlines. rewrite <- !app_assoc. reflexivity.
      * right. split.
        -- intros HF. apply Hrest. inversion HF; assumption.
        -- rewrite <- Hlines. rewrite <- !app_assoc. reflexivity.
    + rewrite Hrs. right. split; [ | reflexivity ].
      intros HF. apply Hrows. apply printable_cells. inversion HF; assumption.
Qed.

Lemma printable_stickers (fs : Faces) :
  Forall (fun face => Forall printable (cells face)) (face_list fs)
  <-> Forall printable (stickers fs).
Proof.
  unfold stickers. generalize (face_list fs). intros l.
  induction l as [ | face l IH ]; cbn [map concat].
  - split; constructor.
  - rewrite Forall_cons_iff, Forall_app, IH. reflexivity.
Qed.

(** X18: [str(cube)] never changes the cube.  It returns normally when every
    sticker is an index [color_names] accepts, that is between -6 and 5, and
    raises [IndexError] otherwise; in particular it returns normally on every
    cube reachable from the solved one. *)
Theorem str_returns_iff_printable (fs : Faces) :
  (Forall printable (stickers fs) -> exists s, __str__ fs = (Ok s, fs))
  /\ (~ Forall printable (stickers fs) ->
      __str__ fs = (Raise list_index_error, fs))
  /\ (reachable fs -> exists s, __str__ fs = (Ok s, fs)).
Proof.
  assert (Hcases :
            (Forall printable (stickers fs)
             /\ exists s, __str__ fs = (Ok s, fs))
            \/ (~ Forall printable (stickers fs)
                /\ __str__ fs = (Raise list_index_error, fs))).
  { unfold __str__, bind, get_state, lift_outcome.
    destruct (str_loop_cases (face_list fs) 0%Z [])
      as [[Hall (lines & Hlines)] | [Hnot Hlines]];
      [ lia | destruct fs; cbn [face_list length]; lia | | ].
    - left. rewrite Hlines. apply printable_stickers in Hall.
      split; [ exact Hall | eexists; reflexivity ].
    - right. rewrite Hlines. split; [ | reflexivity ].
      intros Hp. apply printable_stickers in Hp. contradiction. }
  assert (Hok : Forall printable (stickers fs) ->
                exists s, __str__ fs = (Ok s, fs)).
  { intros Hp. destruct Hcases as [[_ Hs] | [Hn _]];
      [ exact Hs | contradiction ]. }
  split; [ exact Hok | split ].
  - intros Hn. destruct Hcases as [[Hp _] | [_ Hr]];
      [ contradiction | exact Hr ].
  - intros Hc. apply Hok.
    pose proof (reachable_stickers_colors fs Hc) as Hcol.
    rewrite List.Forall_forall in Hcol. apply List.Forall_forall.
    intros x Hx. specialize (Hcol x Hx).
    unfold printable. unfold colors in Hcol. cbn [In] in Hcol.
    repeat (destruct Hcol as [<- | Hcol]); [ lia .. | contradiction ].
Qed.

Lemma str_returns_iff_printable_witness :
  (exists s, __str__ after_F = (Ok s, after_F))
  /\ __str__ (uniform_cube 0 1 2 3 4 6)
     = (Raise list_index_error, uniform_cube 0 1 2 3 4 6).
Proof.
  split.
  - apply (proj1 (str_returns_iff_printable after_F)).
    vm_compute. repeat (constructor; [ split; discriminate | ]). constructor.
  - apply (proj1 (proj2 (str_returns_iff_printable (uniform_cube 0 1 2 3 4 6)))).
    intros HF. rewrite List.Forall_forall in HF.
    specialize (HF 6%Z). unfold printable in HF.
    assert (Hin : In 6%Z (stickers (uniform_cube 0 1 2 3 4 6)))
      by (vm_compute; tauto).
    apply HF in Hin. lia.
Defined.

(** * Edges and face rotation *)

Ltac face_index_cases i H :=
  destruct i as [ | [ | [ | [ | [ | [ | i ] ] ] ] ] ];
  [ .. | exfalso; simpl in H; lia ].
Ltac edge_index_cases i H :=
  destruct i as [ | [ | [ | [ | i ] ] ] ];
  [ .. | exfalso; simpl in H; lia ].

(** X19: for a face index 0..5, an edge index 0..3 and a strip of three int8
    values (-128..127, which the array stores as they are), writing the strip
    with [_set_face_edge] and reading it with [_get_face_edge] gives the
    strip back, and the write changes no other face; writing back the strip
    just read leaves the cube as it is. *)
Theorem edge_round_trip (face_idx edge_idx : nat) (c : Faces) (e : Row) :
  (face_idx < 6)%nat -> (edge_idx < 4)%nat -> int8_row e ->
  (exists c', _set_face_edge face_idx edge_idx (Some e) c = (Ok tt, c')
              /\ _get_face_edge face_idx edge_idx c' = (Ok (Some e), c')
              /\ forall j, j <> face_idx -> faces_get c' j = faces_get c j)
  /\ (do* (let* old := _get_face_edge face_idx edge_idx in
           _set_face_edge face_idx edge_idx old) in ret tt) c = (Ok tt, c).
Proof.
  intros Hf He _.
  face_index_cases face_idx Hf; edge_index_cases edge_idx He;
    destruct_faces c; destruct e as [e0 e1 e2].
  all: split; [ eexists; split; [ reflexivity | split; [ reflexivity | ] ]
              | reflexivity ].
  all: intros j Hj;
    destruct j as [ | [ | [ | [ | [ | [ | j ] ] ] ] ] ];
    first [ reflexivity | congruence ].
Qed.

Lemma edge_round_trip_witness :
  (exists c', _set_face_edge 2 3 (Some (mkRow 5 0 (-7))) init_faces = (Ok tt, c')
              /\ _get_face_edge 2 3 c' = (Ok (Some (mkRow 5 0 (-7))), c')
              /\ forall j, j <> 2 -> faces_get c' j = faces_get init_faces j)
  /\ (do* (let* old := _get_face_edge 2 3 in _set_face_edge 2 3 old) in ret tt)
       init_faces = (Ok tt, init_faces).
Proof.
  apply (edge_round_trip 2 3 init_faces (mkRow 5 0 (-7))).
  - lia.
  - lia.
  - unfold int8_row, int8; simpl; lia.
Defined.

(** X20: outside their index ranges the edge accessors behave as follows.  An
    edge index of 4 or more makes [_get_face_edge] return [None] and
    [_set_face_edge] do nothing, both without an exception when the face
    index is valid; a face index of 6 or more makes [_get_face_edge] raise
    [IndexError], and [_rotate_face] too, with the cube untouched. *)
Theorem edge_out_of_range (face_idx edge_idx : nat) (c : Faces)
    (e : option Row) (clockwise : bool) :
  ((face_idx < 6)%nat -> (4 <= edge_idx)%nat ->
   _get_face_edge face_idx edge_idx c = (Ok None, c)
   /\ _set_face_edge face_idx edge_idx e c = (Ok tt, c))
  /\ ((6 <= face_idx)%nat ->
      _get_face_edge face_idx edge_idx c = (Raise index_error, c)
      /\ _rotate_face face_idx clockwise c = (Raise index_error, c)).
Proof.
  split.
  - intros Hf He.
    do 4 (destruct edge_idx as [ | edge_idx ]; [ lia | ]).
    face_index_cases face_idx Hf; split; reflexivity.
  - intros Hf.
    do 6 (destruct face_idx as [ | face_idx ]; [ lia | ]).
    split; reflexivity.
Qed.

Lemma edge_out_of_range_witness :
  (_get_face_edge 0 4 after_F = (Ok None, after_F)
   /\ _set_face_edge 0 4 (Some (mkRow 1 2 3)) after_F = (Ok tt, after_F))
  /\ (_get_face_edge 6 0 after_F = (Raise index_error, after_F)
      /\ _rotate_face 6 true after_F = (Raise index_error, after_F)).
Proof.
  split.
  - apply (proj1 (edge_out_of_range 0 4 after_F (Some (mkRow 1 2 3)) true)); lia.
  - apply (proj2 (edge_out_of_range 6 0 after_F None true)); lia.
Defined.

(** X21: for a face index below 6, [_rotate_face] changes that face only; a
    clockwise and a counter-clockwise rotation cancel, in either order, and
    four rotations in the same direction give the cube back. *)
Theorem rotate_face_spec (face_idx : nat) (clockwise : bool) (c : Faces) :
  (face_idx < 6)%nat ->
  (exists c', _rotate_face face_idx clockwise c = (Ok tt, c')
              /\ forall j, j <> face_idx -> faces_get c' j = faces_get c j)
  /\ (do* _rotate_face face_idx clockwise in
      _rotate_face face_idx (negb clockwise)) c = (Ok tt, c)
  /\ (do* _rotate_face face_idx clockwise in
      do* _rotate_face face_idx clockwise in
      do* _rotate_face face_idx clockwise in
      _rotate_face face_idx clockwise) c = (Ok tt, c).
Proof.
  intros Hf.
  face_index_cases face_idx Hf; destruct_faces c; destruct clockwise.
  all: split; [ eexists; split; [ reflexivity | ]
              | split; reflexivity ].
  all: intros j Hj;
    destruct j as [ | [ | [ | [ | [ | [ | j ] ] ] ] ] ];
    first [ reflexivity | congruence ].
Qed.

Lemma rotate_face_spec_witness :
  (exists c', _rotate_face 4 true after_F = (Ok tt, c')
              /\ forall j, j <> 4 -> faces_get c' j = faces_get after_F j)
  /\ (do* _rotate_face 4 true in _rotate_face 4 (negb true)) after_F
     = (Ok tt, after_F)
  /\ (do* _rotate_face 4 true in do* _rotate_face 4 true in
      do* _rotate_face 4 true in _rotate_face 4 true) after_F
     = (Ok tt, after_F).
Proof.
  apply (rotate_face_spec 4 true after_F). lia.
Defined.
